(** * SimpleJobTracker: the status upsert of [src/shared/job_tracker.py]

    The module has one class, [SimpleJobTracker], with a class attribute
    [_pool] and two class methods, [get_pool] and [update_status].  The
    development below embeds both methods, the SQL statement that
    [update_status] sends, and the parts of the outside world they act
    on: the process environment, the connection pool, the
    [pipeline_jobs] table with its open transaction, and the logger.

    What is assumed of the outside world:
    - calls run one after the other (no two threads inside the class at
      once), but for [get_pool_overlapping], which has two;
    - the [metadata] column is of type [jsonb] and holds JSON objects or
      NULL, and [job_id] carries the unique index that [ON CONFLICT
      (job_id)] names;
    - [NOW()] is whatever the server's clock says when the call's
      transaction starts: each call is given that value;
    - any operation on the pool constructor, on [getconn], on the
      connection or on the cursor may raise, some subclass of
      [Exception]; the logger and [putconn] on a connection that is
      checked out do not;
    - [int] is the interpreter's: each call is given what it makes of
      a text. *)

From Stdlib Require Import ZArith Lia String.
From stdpp Require Import base option list strings gmap.

Set Warnings "-register-all,-clear-no-such-hyp".

Local Open Scope Z_scope.
Local Open Scope string_scope.
Local Open Scope list_scope.

(** ** Python values and their JSON encoding *)

(** The values of a [Dict[str, Any]].  [PySet] stands for the values
    [json.dumps] has no encoding for (sets, datetimes, arbitrary
    objects): it raises [TypeError] on them.  Numbers are integers. *)
Inductive pyval : Type :=
| PyNone
| PyBool (b : bool)
| PyInt (n : Z)
| PyStr (s : string)
| PyList (xs : list pyval)
| PyDict (kvs : list (string * pyval))
| PySet (xs : list pyval).

(** A JSON value as the [jsonb] column holds it. *)
Inductive jval : Type :=
| JNull
| JBool (b : bool)
| JNum (n : Z)
| JStr (s : string)
| JArr (xs : list jval)
| JObj (kvs : list (string * jval)).

(** [json.dumps] on one value, followed by the server's parse of the
    text: [None] is the [TypeError]. *)
Fixpoint to_json (v : pyval) : option jval :=
  match v with
  | PyNone => Some JNull
  | PyBool b => Some (JBool b)
  | PyInt n => Some (JNum n)
  | PyStr s => Some (JStr s)
  | PyList xs =>
      JArr <$> (fix go (l : list pyval) : option (list jval) :=
                  match l with
                  | [] => Some []
                  | x :: l' =>
                      match to_json x, go l' with
                      | Some y, Some ys => Some (y :: ys)
                      | _, _ => None
                      end
                  end) xs
  | PyDict kvs =>
      JObj <$> (fix go (l : list (string * pyval)) : option (list (string * jval)) :=
                  match l with
                  | [] => Some []
                  | (k, x) :: l' =>
                      match to_json x, go l' with
                      | Some y, Some ys => Some ((k, y) :: ys)
                      | _, _ => None
                      end
                  end) kvs
  | PySet _ => None
  end.

(** The [metadata] argument, a Python dict with string keys, and the
    JSON object stored from it.  Only the top level matters to the
    merge, so the top level is a finite map. *)
Abbreviation pydict := (gmap string pyval).
Abbreviation jsonb := (gmap string jval).

(** [json.dumps(metadata)] on a dict: raises as soon as one value has no
    encoding. *)
Definition json_dumps (d : pydict) : option jsonb :=
  if forallb (λ kv, match to_json kv.2 with Some _ => true | None => false end)
       (map_to_list d)
  then Some (omap to_json d)
  else None.

(** ** The [pipeline_jobs] table *)

Record Row : Type := mkRow {
  job_id : string;
  series_id : string;
  status : string;
  stage : string;
  error_message : option string;   (* NULL is [None] *)
  metadata : option jsonb;         (* NULL is [None] *)
  updated_at : Z                   (* a timestamp, in microseconds *)
}.

(** The table keeps its rows in insertion order; the unique index on
    [job_id] is the invariant [unique_job_ids] below, not a property of
    the type. *)
Abbreviation Table := (list Row).

Definition job_ids (t : Table) : list string := map job_id t.

Definition unique_job_ids (t : Table) : Prop := NoDup (job_ids t).

Definition has_job (j : string) (r : Row) : bool := bool_decide (job_id r = j).

(** [SELECT * FROM pipeline_jobs WHERE job_id = j]. *)
Definition rows_of (j : string) (t : Table) : Table := filter (λ r, job_id r = j) t.

(** The record stored for [j]: the first row with that key. *)
Definition find_row (j : string) (t : Table) : option Row := head (rows_of j t).

(** ** The SQL statement *)

(** [a || b] on [jsonb] objects: [NULL] as soon as one side is [NULL],
    otherwise the object with the keys of both sides, the right-hand
    value kept for a key both have. *)
Definition jsonb_concat (a b : option jsonb) : option jsonb :=
  match a, b with
  | Some x, Some y => Some (y ∪ x)
  | _, _ => None
  end.

(** [COALESCE(x1, ..., xn)]: the first argument that is not [NULL]. *)
Fixpoint COALESCE {A : Type} (xs : list (option A)) : option A :=
  match xs with
  | [] => None
  | Some x :: _ => Some x
  | None :: xs' => COALESCE xs'
  end.

(** The [DO UPDATE SET] list, applied to the stored row [r] with the
    row proposed for insertion, [excluded]. *)
Definition do_update (now : Z) (excluded r : Row) : Row :=
  {| job_id := job_id r;
     series_id := series_id r;
     status := status excluded;
     stage := stage excluded;
     error_message := error_message excluded;
     metadata := COALESCE [ jsonb_concat (metadata r) (metadata excluded);
                            metadata r;
                            metadata excluded ];
     updated_at := now |}.

(** [INSERT INTO pipeline_jobs ... ON CONFLICT (job_id) DO UPDATE SET ...]. *)
Definition insert_on_conflict (now : Z) (excluded : Row) (t : Table) : Table :=
  if existsb (has_job (job_id excluded)) t
  then map (λ r, if has_job (job_id excluded) r then do_update now excluded r else r) t
  else t ++ [excluded].

(** ** Exceptions and the state-and-exception monad *)

(** The calls on psycopg2 objects that talk to the server and can fail
    for reasons outside the program. *)
Inductive Op : Type :=
| OpNewPool      (* pool.ThreadedConnectionPool(...) opens [minconn] connections *)
| OpGetConn      (* pool.getconn() may have to open a connection *)
| OpCursor       (* conn.cursor() *)
| OpExecute      (* cursor.execute(...) *)
| OpCommit       (* conn.commit() *)
| OpCursorClose  (* cursor.close() *)
| OpRollback.    (* conn.rollback() *)

(** Every exception below is a subclass of [Exception]. *)
Inductive exn : Type :=
| ValueError              (* int() on a malformed DATABASE_PORT *)
| TypeError               (* json.dumps on a value it cannot encode *)
| PoolError               (* pool exhausted, or an unkeyed connection *)
| UnboundLocalError       (* a local variable read before assignment *)
| DatabaseError (op : Op). (* psycopg2.Error raised by [op] *)

Inductive res (A : Type) : Type :=
| Ok (a : A)
| Raise (e : exn).
Arguments Ok {A} a.
Arguments Raise {A} e.

(** A computation on a state [S] that returns or raises. *)
Definition M (S A : Type) : Type := S → S * res A.

Section Monad.
Context {S : Type}.

Definition ret {A} (a : A) : M S A := λ s, (s, Ok a).

Definition bind {A B} (m : M S A) (k : A → M S B) : M S B :=
  λ s, match m s with
       | (s', Ok a) => k a s'
       | (s', Raise e) => (s', Raise e)
       end.

Definition raise {A} (e : exn) : M S A := λ s, (s, Raise e).

Definition get : M S S := λ s, (s, Ok s).

Definition modify (f : S → S) : M S unit := λ s, (f s, Ok tt).

(** An expression without effect that returns or raises. *)
Definition eval {A} (r : res A) : M S A := λ s, (s, r).

(** [try: body  except Exception as e: handler e]. *)
Definition try_except {A} (body : M S A) (handler : exn → M S A) : M S A :=
  λ s, match body s with
       | (s', Ok a) => (s', Ok a)
       | (s', Raise e) => handler e s'
       end.

(** [try: body  finally: cleanup]: the cleanup runs on every exit of
    the body; an exception of the cleanup replaces the body's
    outcome. *)
Definition try_finally {A} (body : M S A) (cleanup : M S unit) : M S A :=
  λ s, match body s with
       | (s', r) =>
           match cleanup s' with
           | (s'', Ok _) => (s'', r)
           | (s'', Raise e) => (s'', Raise e)
           end
       end.
End Monad.

#[global] Instance M_ret {S} : MRet (M S) := λ A, ret.
#[global] Instance M_bind {S} : MBind (M S) := λ A B k m, bind m k.

(** ** The environment of a call: [os.getenv], [int], the server *)

(** What a call finds outside the program: the process environment;
    what the interpreter's [int] makes of a text, the integer or [None]
    for the [ValueError] (which texts are numbers depends on the
    interpreter: its Unicode tables, its limit on the number of digits,
    so [int] is taken as it is, not computed here); the server's clock
    as [NOW()] reads it in the call's transaction; and which of the
    operations that reach the server fail. *)
Record Env : Type := mkEnv {
  environ : gmap string string;
  py_int : string → option Z;
  NOW : Z;
  fails : Op → bool
}.

(** [os.getenv(name, default)]. *)
Definition getenv (env : Env) (name dflt : string) : string :=
  default dflt (environ env !! name).

(** ** The process, the pool and the server *)

(** A [ThreadedConnectionPool] object: its identity and the arguments it
    was built with.  Its table of checked-out connections is mutable
    and lives in the world, under the pool's identity. *)
Record Pool : Type := mkPool {
  pool_id : nat;
  minconn : nat;
  maxconn : nat;
  host : string;
  port : Z;
  database : string;
  user : string;
  password : string;
  connect_timeout : nat
}.

Inductive LogLine : Type :=
| PoolInitialized                        (* info, line 35 *)
| JobUpdated (job status stage : string) (* info, line 91 *)
| UpdateFailed (e : exn).                (* error, line 94 *)

(** What the outside sees of a run, oldest first: the calls on the pool
    and on the connection that completed, and the log lines. *)
Inductive Event : Type :=
| EvNewPool (p : nat)
| EvGetConn (c : nat)
| EvCursor (c : nat)
| EvExecute (c : nat)
| EvCommit (c : nat)
| EvCursorClose (c : nat)
| EvRollback (c : nat)
| EvPutConn (c : nat)
| EvLog (l : LogLine).

Record World : Type := mkWorld {
  cls_pool : option Pool;        (* SimpleJobTracker._pool *)
  pools_created : nat;           (* ThreadedConnectionPool objects built so far *)
  pool_used : gmap nat (list nat); (* per pool: the connections checked out *)
  db : Table;                    (* the committed rows of pipeline_jobs *)
  txn : option Table;            (* the rows as the open transaction sees them *)
  trace : list Event
}.

Definition set_cls_pool (p : option Pool) (w : World) : World :=
  mkWorld p (pools_created w) (pool_used w) (db w) (txn w) (trace w).
Definition set_pools_created (n : nat) (w : World) : World :=
  mkWorld (cls_pool w) n (pool_used w) (db w) (txn w) (trace w).
Definition set_pool_used (u : gmap nat (list nat)) (w : World) : World :=
  mkWorld (cls_pool w) (pools_created w) u (db w) (txn w) (trace w).
Definition set_db (t : Table) (w : World) : World :=
  mkWorld (cls_pool w) (pools_created w) (pool_used w) t (txn w) (trace w).
Definition set_txn (t : option Table) (w : World) : World :=
  mkWorld (cls_pool w) (pools_created w) (pool_used w) (db w) t (trace w).
Definition emit (e : Event) (w : World) : World :=
  mkWorld (cls_pool w) (pools_created w) (pool_used w) (db w) (txn w) (trace w ++ [e]).

(** The connections checked out of pool [p]. *)
Definition used_of (p : Pool) (w : World) : list nat :=
  default [] (pool_used w !! pool_id p).

(** [logger.info] and [logger.error]: the logging module does not raise. *)
Definition logger (l : LogLine) : M World unit := modify (emit (EvLog l)).

(** An operation that reaches the server: raises when the environment
    says so, otherwise has the effect [f] and is recorded as [ev]. *)
Definition server_op (env : Env) (op : Op) (ev : Event) (f : World → World) : M World unit :=
  if fails env op then raise (DatabaseError op)
  else modify (λ w, emit ev (f w)).

(** [pool.ThreadedConnectionPool(minconn, maxconn, **kwargs)]: the
    constructor opens the first connections at once, so it can fail;
    on success the process has one more pool object, nothing checked
    out of it. *)
Definition ThreadedConnectionPool (env : Env) (minconn maxconn : nat)
    (host : string) (port : Z) (database user password : string)
    (connect_timeout : nat) : M World Pool :=
  w ← get;
  let p := mkPool (pools_created w) minconn maxconn host port database user
                  password connect_timeout in
  server_op env OpNewPool (EvNewPool (pool_id p))
    (λ w, set_pool_used (<[pool_id p := []]> (pool_used w))
            (set_pools_created (S (pools_created w)) w));;
  mret p.

(** A connection key that is not checked out. *)
Definition fresh_conn (used : list nat) : nat := S (foldr Nat.max 0%nat used).

(** [pool.getconn()]: [PoolError] when [maxconn] connections are out;
    otherwise an idle connection, or a new one, which may fail to open.
    The connection handed out has no transaction open. *)
Definition getconn (env : Env) (p : Pool) : M World nat :=
  w ← get;
  let used := used_of p w in
  if (maxconn p <=? length used)%nat then raise PoolError
  else
    let c := fresh_conn used in
    server_op env OpGetConn (EvGetConn c)
      (λ w, set_txn None (set_pool_used (<[pool_id p := c :: used]> (pool_used w)) w));;
    mret c.

(** [pool.putconn(conn)]: [PoolError] on a connection the pool did not
    hand out; otherwise the connection is taken off the checked-out
    table, and the pool rolls back or closes it, so whatever its
    transaction had pending is gone.  This is bookkeeping inside the
    process: a dead connection is dropped, not reported. *)
Definition putconn (p : Pool) (c : nat) : M World unit :=
  w ← get;
  let used := used_of p w in
  if bool_decide (c ∈ used)
  then modify (λ w, emit (EvPutConn c)
                 (set_txn None
                    (set_pool_used (<[pool_id p := filter (λ c', c' ≠ c) used]> (pool_used w)) w)))
  else raise PoolError.

(** [conn.cursor()]. *)
Definition cursor (env : Env) (c : nat) : M World unit :=
  server_op env OpCursor (EvCursor c) id.

(** [cursor.execute(sql, params)]: the statement runs inside the
    connection's transaction, which it opens if need be; [NOW()] is the
    server time of that transaction.  A failed statement changes
    nothing. *)
Definition execute (env : Env) (c : nat) (excluded : Row) : M World unit :=
  w ← get;
  let working := default (db w) (txn w) in
  modify (set_txn (Some working));;
  server_op env OpExecute (EvExecute c)
    (set_txn (Some (insert_on_conflict (NOW env) excluded working))).

(** [conn.commit()]: what the transaction sees becomes the table. *)
Definition commit (env : Env) (c : nat) : M World unit :=
  server_op env OpCommit (EvCommit c)
    (λ w, set_txn None (set_db (default (db w) (txn w)) w)).

(** [conn.rollback()]: what the transaction had pending is dropped. *)
Definition rollback (env : Env) (c : nat) : M World unit :=
  server_op env OpRollback (EvRollback c) (set_txn None).

(** [cursor.close()]. *)
Definition cursor_close (env : Env) (c : nat) : M World unit :=
  server_op env OpCursorClose (EvCursorClose c) id.

(** ** [SimpleJobTracker.get_pool] (lines 21-36) *)

(** [int(s)] as a computation. *)
Definition int {S} (env : Env) (s : string) : M S Z :=
  match py_int env s with
  | Some n => mret n
  | None => raise ValueError
  end.

(** The keyword arguments are evaluated in the order they are written,
    before the constructor runs; [int] is the only one that can raise.
    The value returned is the attribute, which the first branch has just
    assigned. *)
Definition get_pool (env : Env) : M World Pool :=
  w ← get;
  match cls_pool w with
  | None =>
      let host := getenv env "DATABASE_HOST" "timescaledb" in
      port ← int env (getenv env "DATABASE_PORT" "5432");
      let database := getenv env "DATABASE_NAME" "timeseries" in
      let user := getenv env "DATABASE_USER" "tsuser" in
      let password := getenv env "DATABASE_PASSWORD" "ts_password" in
      p ← ThreadedConnectionPool env 1 5 host port database user password 10;
      modify (set_cls_pool (Some p));;
      logger PoolInitialized;;
      mret p
  | Some p => mret p
  end.

(** ** [SimpleJobTracker.update_status] (lines 38-99) *)

Record Args : Type := mkArgs {
  arg_job_id : string;
  arg_series_id : string;
  arg_status : string;
  arg_stage : string;
  arg_error_message : option string;   (* default None *)
  arg_metadata : option pydict         (* default None *)
}.

(** The truth value of an [Optional[Dict]]: [None] and the empty dict
    are false. *)
Definition truthy (metadata : option pydict) : bool :=
  match metadata with
  | Some d => negb (size d =? 0)%nat
  | None => false
  end.

(** Line 86: [json.dumps(metadata) if metadata else None]. *)
Definition metadata_param (metadata : option pydict) : res (option jsonb) :=
  match metadata with
  | Some d =>
      if truthy metadata
      then match json_dumps d with
           | Some j => Ok (Some j)
           | None => Raise TypeError
           end
      else Ok None
  | None => Ok None
  end.

(** The local variables of [update_status] that outlive the [try]. *)
Record Frame : Type := mkFrame {
  conn : option nat;
  pool : option Pool
}.

Definition in_world {A} (m : M World A) : M (Frame * World) A :=
  λ s, match m s.2 with (w', r) => ((s.1, w'), r) end.

Definition assign_pool (p : Pool) : M (Frame * World) unit :=
  modify (λ s, (mkFrame (conn s.1) (Some p), s.2)).

Definition assign_conn (c : nat) : M (Frame * World) unit :=
  modify (λ s, (mkFrame (Some c) (pool s.1), s.2)).

Definition frame : M (Frame * World) Frame := s ← get; mret s.1.

(** The row of the [VALUES] clause. *)
Definition excluded_row (env : Env) (a : Args) (params_metadata : option jsonb) : Row :=
  {| job_id := arg_job_id a;
     series_id := arg_series_id a;
     status := arg_status a;
     stage := arg_stage a;
     error_message := arg_error_message a;
     metadata := params_metadata;
     updated_at := NOW env |}.

(** Lines 60-99.  A psycopg2 connection is always true, so [if conn]
    tests whether [conn] was assigned. *)
Definition update_status_body (env : Env) (a : Args) : M (Frame * World) unit :=
  try_finally
    (try_except
       (p ← in_world (get_pool env);
        assign_pool p;;
        c ← in_world (getconn env p);
        assign_conn c;;
        in_world (cursor env c);;
        m ← eval (metadata_param (arg_metadata a));
        in_world (execute env c (excluded_row env a m));;
        in_world (commit env c);;
        in_world (cursor_close env c);;
        in_world (logger (JobUpdated (arg_job_id a) (arg_status a) (arg_stage a))))
       (λ e,
        in_world (logger (UpdateFailed e));;
        f ← frame;
        match conn f with
        | Some c => in_world (rollback env c)
        | None => mret tt
        end))
    (f ← frame;
     match conn f with
     | Some c =>
         match pool f with
         | Some p => in_world (putconn p c)
         | None => raise UnboundLocalError
         end
     | None => mret tt
     end).

(** The call: [conn = None] (line 59), then the [try] statement; the
    function falls off its end, so a normal return is [Ok tt]. *)
Definition update_status (env : Env) (a : Args) : M World unit :=
  λ w, match update_status_body env a (mkFrame None None, w) with
       | (s, r) => (s.2, r)
       end.

(** A sequence of calls, each in its own environment. *)
Fixpoint run_calls (cs : list (Env * Args)) (w : World) : World :=
  match cs with
  | [] => w
  | (env, a) :: cs' => run_calls cs' (update_status env a w).1
  end.


(** ** The write proper, and when it goes through *)

(** Lines 63-91: what the [try] body does once [conn] is assigned. *)
Definition write (env : Env) (a : Args) (c : nat) : M World unit :=
  cursor env c;;
  m ← eval (metadata_param (arg_metadata a));
  execute env c (excluded_row env a m);;
  commit env c;;
  cursor_close env c;;
  logger (JobUpdated (arg_job_id a) (arg_status a) (arg_stage a)).

(** Lines 93-96, with [conn] assigned. *)
Definition on_error (env : Env) (c : nat) (e : exn) : M World unit :=
  logger (UpdateFailed e);;
  rollback env c.

Definition is_ok {A} (r : res A) : bool :=
  match r with Ok _ => true | Raise _ => false end.

(** Nothing raises on the connection up to and including
    [conn.commit()]. *)
Definition write_commits (env : Env) (a : Args) : bool :=
  negb (fails env OpCursor)
  && is_ok (metadata_param (arg_metadata a))
  && negb (fails env OpExecute)
  && negb (fails env OpCommit).

(** The call reaches the server and its transaction commits: a pool is
    there or can be built, it has a connection to give, and the write
    commits on it. *)
Definition write_succeeds (env : Env) (a : Args) (w : World) : bool :=
  match get_pool env w with
  | (w1, Ok p) =>
      (length (used_of p w1) <? maxconn p)%nat
      && negb (fails env OpGetConn)
      && write_commits env a
  | (_, Raise _) => false
  end.

(** The value bound to the statement's [metadata] parameter. *)
Definition stored_param (a : Args) : option jsonb :=
  match metadata_param (arg_metadata a) with
  | Ok m => m
  | Raise _ => None
  end.

(** The events a call adds to the trace. *)
Definition call_events (env : Env) (a : Args) (w : World) : list Event :=
  drop (length (trace w)) (trace (update_status env a w).1).

(** The events on the pool's table of connections. *)
Definition is_pool_event (e : Event) : bool :=
  match e with
  | EvGetConn _ | EvPutConn _ => true
  | _ => false
  end.

(** The events of building the pool. *)
Definition is_setup_event (e : Event) : bool :=
  match e with
  | EvNewPool _ | EvLog PoolInitialized => true
  | _ => false
  end.

(** The pool [get_pool] builds when there is none. *)
Definition new_pool (env : Env) (n : Z) (w : World) : Pool :=
  mkPool (pools_created w) 1 5
    (getenv env "DATABASE_HOST" "timescaledb") n
    (getenv env "DATABASE_NAME" "timeseries")
    (getenv env "DATABASE_USER" "tsuser")
    (getenv env "DATABASE_PASSWORD" "ts_password") 10.

(** ** The statements under scrutiny, in the specification's words *)

(** The union of the old and the new keys, the new value for a key both
    have, the old value for a key the new write does not have. *)
Definition shallow_merge (old new : jsonb) : jsonb :=
  merge (λ vo vn, match vn with Some v => Some v | None => vo end) old new.

(** The stored metadata the specification announces for an update:
    the merge when both are there, the old metadata when the call
    supplies none, the new metadata (or its absence) when there was
    none. *)
Definition merged_as_stated (old new : option jsonb) : option jsonb :=
  match old, new with
  | Some o, Some n => Some (shallow_merge o n)
  | Some o, None => Some o
  | None, n => n
  end.

(** The metadata a call supplies, as JSON: that of the argument, absent
    when the argument is. *)
Definition supplied (a : Args) : option jsonb := arg_metadata a ≫= json_dumps.

(** The same, an empty mapping counted as absent. *)
Definition supplied_nonempty (a : Args) : option jsonb :=
  if truthy (arg_metadata a) then supplied a else None.

(** The value under a key of a metadata column; [NULL] has no keys. *)
Definition keyval (k : string) (m : option jsonb) : option jval := m ≫= (.!! k).

(** The record "with the given fields and metadata as given". *)
Definition row_as_given (env : Env) (a : Args) : Row :=
  excluded_row env a (supplied a).

(** The specification's sentence on metadata for an update, at one
    call. *)
Definition metadata_merged_as_stated (env : Env) (a : Args) (w : World) : Prop :=
  ∀ r, find_row (arg_job_id a) (db w) = Some r →
       ∃ r', find_row (arg_job_id a) (db (update_status env a w).1) = Some r'
             ∧ metadata r' = merged_as_stated (metadata r) (supplied a).

(** The specification's sentence on the first write for a key, at one
    call. *)
Definition record_created_as_given (env : Env) (a : Args) (w : World) : Prop :=
  find_row (arg_job_id a) (db w) = None →
  rows_of (arg_job_id a) (db (update_status env a w).1) = [row_as_given env a].

(** The specification's sentence on failures, at one call: whatever
    fails, the call returns normally. *)
Definition returns_normally (env : Env) (a : Args) (w : World) : Prop :=
  (update_status env a w).2 = Ok tt.

Definition with_metadata (m : option pydict) (a : Args) : Args :=
  mkArgs (arg_job_id a) (arg_series_id a) (arg_status a) (arg_stage a)
         (arg_error_message a) m.

(** No call of [cs], run from [w], commits a write for the key [j]. *)
Fixpoint quiet_for (j : string) (cs : list (Env * Args)) (w : World) : Prop :=
  match cs with
  | [] => True
  | (env, a) :: cs' =>
      (arg_job_id a ≠ j ∨ write_succeeds env a w = false)
      ∧ quiet_for j cs' (update_status env a w).1
  end.

(** The specification's sentence on [updated_at], at two writes in a row
    for one job_id. *)
Definition updated_at_increases_as_stated
    (env1 : Env) (a1 : Args) (env2 : Env) (a2 : Args) (w : World) : Prop :=
  arg_job_id a2 = arg_job_id a1 →
  write_succeeds env1 a1 w = true →
  write_succeeds env2 a2 (update_status env1 a1 w).1 = true →
  ∃ r1 r2,
    find_row (arg_job_id a1) (db (update_status env1 a1 w).1) = Some r1
    ∧ find_row (arg_job_id a1)
        (db (update_status env2 a2 (update_status env1 a1 w).1).1) = Some r2
    ∧ updated_at r1 < updated_at r2.

(** ** Two threads in [get_pool] *)

(** Lines 25-36: what a thread does in [get_pool] once its test of line
    24 has found [_pool] to be [None]. *)
Definition build_pool (env : Env) : M World Pool :=
  let host := getenv env "DATABASE_HOST" "timescaledb" in
  port ← int env (getenv env "DATABASE_PORT" "5432");
  let database := getenv env "DATABASE_NAME" "timeseries" in
  let user := getenv env "DATABASE_USER" "tsuser" in
  let password := getenv env "DATABASE_PASSWORD" "ts_password" in
  p ← ThreadedConnectionPool env 1 5 host port database user password 10;
  modify (set_cls_pool (Some p));;
  logger PoolInitialized;;
  mret p.

(** What a thread does after its test of line 24 saw [saw]. *)
Definition after_test (env : Env) (saw : option Pool) : M World Pool :=
  match saw with
  | None => build_pool env
  | Some p => mret p
  end.


(** ** Concrete processes, environments and calls *)

(** A process that has just imported the module, on an empty table. *)
Definition fresh_process : World := mkWorld None 0 ∅ [] None [].

(** What [int] makes of the two port texts the environments below can
    hand it: "5432", the default, is 5432, and "54x2" is a
    [ValueError].  They hand it no other text; the table has the
    [ValueError] there, which nothing below looks at. *)
Definition int_of_port_text (s : string) : option Z :=
  if String.eqb s "5432" then Some 5432 else None.

(** No variable set, every operation goes through, server time [now]. *)
Definition env_at (now : Z) : Env := mkEnv ∅ int_of_port_text now (λ _, false).

(** The server drops the connection while the statement runs:
    [cursor.execute] raises, and so does [conn.rollback()] on the dead
    connection. *)
Definition env_connection_lost : Env :=
  mkEnv ∅ int_of_port_text 2000
    (λ op, match op with OpExecute | OpRollback => true | _ => false end).

(** Another host in the environment, the rest as in [env_at]. *)
Definition env_elsewhere : Env :=
  mkEnv {[ "DATABASE_HOST" := "elsewhere" ]} int_of_port_text 2000 (λ _, false).

Definition row_job1 (m : option jsonb) : Row :=
  mkRow "job1" "AAPL" "running" "ingestion" (Some "timeout") m 1000.

(** A process whose table holds [job1], with metadata [m]. *)
Definition process_with_job1 (m : option jsonb) : World :=
  mkWorld None 0 ∅ [row_job1 m] None [].

Definition call_job1 (m : option pydict) : Args :=
  mkArgs "job1" "MSFT" "completed" "forecasting" None m.

(** ** The trace of a call, in closed form *)

(** How [write] ends. *)
Definition write_result (env : Env) (a : Args) : res unit :=
  if fails env OpCursor then Raise (DatabaseError OpCursor)
  else match metadata_param (arg_metadata a) with
       | Raise e => Raise e
       | Ok _ =>
           if fails env OpExecute then Raise (DatabaseError OpExecute)
           else if fails env OpCommit then Raise (DatabaseError OpCommit)
           else if fails env OpCursorClose then Raise (DatabaseError OpCursorClose)
           else Ok tt
       end.

(** The events of [write] on the connection [c]. *)
Definition write_trace (env : Env) (a : Args) (c : nat) : list Event :=
  if fails env OpCursor then []
  else EvCursor c ::
    match metadata_param (arg_metadata a) with
    | Raise _ => []
    | Ok _ =>
        if fails env OpExecute then []
        else EvExecute c ::
          if fails env OpCommit then []
          else EvCommit c ::
            if fails env OpCursorClose then []
            else [ EvCursorClose c;
                   EvLog (JobUpdated (arg_job_id a) (arg_status a) (arg_stage a)) ]
    end.

(** The events of the [except] clause after a [try] body that ended
    with [r], the connection [c] in hand. *)
Definition handler_trace (env : Env) (c : nat) (r : res unit) : list Event :=
  match r with
  | Ok _ => []
  | Raise e =>
      EvLog (UpdateFailed e) :: if fails env OpRollback then [] else [EvRollback c]
  end.

(** The lines of lines 91 and 94 among some events: what a call reports
    of its own outcome. *)
Definition outcome_lines (evs : list Event) : list LogLine :=
  omap (λ ev, match ev with
              | EvLog (JobUpdated j s g) => Some (JobUpdated j s g)
              | EvLog (UpdateFailed e) => Some (UpdateFailed e)
              | _ => None
              end) evs.

(** The row [r] with another [updated_at], when its key is [j]. *)
Definition stamp (now : Z) (j : string) (r : Row) : Row :=
  if has_job j r
  then mkRow (job_id r) (series_id r) (status r) (stage r) (error_message r)
             (metadata r) now
  else r.

(** The pool of the class, if there is one, has a positive capacity and
    nothing checked out. *)
Definition pool_idle (w : World) : Prop :=
  ∀ p, cls_pool w = Some p → used_of p w = [] ∧ (0 < maxconn p)%nat.

(** [DATABASE_PORT] is not a number. *)
Definition env_bad_port : Env :=
  mkEnv {[ "DATABASE_PORT" := "54x2" ]} int_of_port_text 2000 (λ _, false).

(** [cursor.close()] raises, nothing else does. *)
Definition env_close_fails : Env :=
  mkEnv ∅ int_of_port_text 2000
    (λ op, match op with OpCursorClose => true | _ => false end).

(** A process whose pool has its five connections checked out. *)
Definition exhausted_pool : Pool :=
  mkPool 0 1 5 "timescaledb" 5432 "timeseries" "tsuser" "ts_password" 10.

Definition exhausted_process : World :=
  mkWorld (Some exhausted_pool) 1 {[ 0%nat := [1; 2; 3; 4; 5]%nat ]} [] None [].

Definition row_job2 : Row :=
  mkRow "job2" "GOOG" "failed" "anomaly" (Some "boom") None 500.

(** ** The call, step by step *)

Arguments insert_on_conflict : simpl never.

Ltac unfold_M :=
  unfold mbind, M_bind, bind, mret, M_ret, ret, raise, eval, modify, get,
    logger, server_op in *.

Lemma update_status_eq env a w :
  update_status env a w =
  match get_pool env w with
  | (w1, Raise e) => (emit (EvLog (UpdateFailed e)) w1, Ok tt)
  | (w1, Ok p) =>
      match getconn env p w1 with
      | (w2, Raise e) => (emit (EvLog (UpdateFailed e)) w2, Ok tt)
      | (w2, Ok c) =>
          match write env a c w2 with
          | (w3, Ok _) =>
              match putconn p c w3 with
              | (w4, Ok _) => (w4, Ok tt)
              | (w4, Raise e) => (w4, Raise e)
              end
          | (w3, Raise e) =>
              match on_error env c e w3 with
              | (w4, r) =>
                  match putconn p c w4 with
                  | (w5, Ok _) => (w5, r)
                  | (w5, Raise e') => (w5, Raise e')
                  end
              end
          end
      end
  end.
Proof.
  unfold update_status, update_status_body, try_finally, try_except, write, on_error.
  unfold mbind, M_bind, bind, in_world, assign_pool, assign_conn, frame, modify, get,
    mret, M_ret, ret, eval, logger, raise; simpl.
  destruct (get_pool env w) as [w1 [p|e]]; simpl; [|reflexivity].
  destruct (getconn env p w1) as [w2 [c|e]]; simpl; [|reflexivity].
  destruct (cursor env c w2) as [w3 [[]|e]]; simpl;
    [|destruct (rollback env c _) as [w4 r]; simpl;
      destruct (putconn p c w4) as [w5 [[]|e']]; reflexivity].
  destruct (metadata_param (arg_metadata a)) as [m|e]; simpl;
    [|destruct (rollback env c _) as [w4 r]; simpl;
      destruct (putconn p c w4) as [w5 [[]|e']]; reflexivity].
  destruct (execute env c _ w3) as [w4 [[]|e]]; simpl;
    [|destruct (rollback env c _) as [w5 r]; simpl;
      destruct (putconn p c w5) as [w6 [[]|e']]; reflexivity].
  destruct (commit env c w4) as [w5 [[]|e]]; simpl;
    [|destruct (rollback env c _) as [w6 r]; simpl;
      destruct (putconn p c w6) as [w7 [[]|e']]; reflexivity].
  destruct (cursor_close env c w5) as [w6 [[]|e]]; simpl;
    [|destruct (rollback env c _) as [w7 r]; simpl;
      destruct (putconn p c w7) as [w8 [[]|e']]; reflexivity].
  destruct (putconn p c _) as [w7 [[]|e']]; reflexivity.
Qed.

Lemma get_pool_cached env w p :
  cls_pool w = Some p → get_pool env w = (w, Ok p).
Proof. intros H. unfold get_pool. unfold_M. now rewrite H. Qed.

Lemma get_pool_inv env w w1 r :
  get_pool env w = (w1, r) →
  match r with
  | Raise e => w1 = w ∧ cls_pool w = None
  | Ok p =>
      (cls_pool w = Some p ∧ w1 = w)
      ∨ (cls_pool w = None
         ∧ fails env OpNewPool = false
         ∧ (∃ n, py_int env (getenv env "DATABASE_PORT" "5432") = Some n
                 ∧ p = new_pool env n w)
         ∧ w1 = mkWorld (Some p) (S (pools_created w))
                  (<[pools_created w := []]> (pool_used w)) (db w) (txn w)
                  (trace w ++ [EvNewPool (pools_created w); EvLog PoolInitialized]))
  end.
Proof.
  unfold get_pool, ThreadedConnectionPool, int. unfold_M.
  destruct (cls_pool w) as [p|] eqn:Hp; simpl.
  - intros [= <- <-]. now left.
  - destruct (py_int _ _) as [n|] eqn:Hn; simpl; [|now intros [= <- <-]].
    destruct (fails env OpNewPool) eqn:Hf; simpl; [now intros [= <- <-]|].
    intros [= <- <-]. right. repeat split; try reflexivity.
    + exists n. split; reflexivity.
    + unfold emit, set_cls_pool, set_pool_used, set_pools_created; simpl.
      now rewrite <- app_assoc.
Qed.

Lemma fresh_conn_bound (used : list nat) (x : nat) :
  x ∈ used → (x < fresh_conn used)%nat.
Proof.
  unfold fresh_conn. induction used as [|y used IH]; simpl.
  - intros H. inversion H.
  - intros H. apply elem_of_cons in H as [->|H]; [lia|].
    specialize (IH H). lia.
Qed.

Lemma fresh_conn_notin (used : list nat) : fresh_conn used ∉ used.
Proof. intros H. apply fresh_conn_bound in H. lia. Qed.

Lemma getconn_inv env p w w2 r :
  getconn env p w = (w2, r) →
  match r with
  | Raise e => w2 = w
  | Ok c =>
      c = fresh_conn (used_of p w)
      ∧ (length (used_of p w) <? maxconn p)%nat = true
      ∧ fails env OpGetConn = false
      ∧ w2 = mkWorld (cls_pool w) (pools_created w)
               (<[pool_id p := c :: used_of p w]> (pool_used w)) (db w) None
               (trace w ++ [EvGetConn c])
  end.
Proof.
  unfold getconn. unfold_M.
  destruct (maxconn p <=? length (used_of p w))%nat eqn:Hfull; simpl.
  - now intros [= <- <-].
  - destruct (fails env OpGetConn) eqn:Hf; simpl; [now intros [= <- <-]|].
    intros [= <- <-]. repeat split.
    apply Nat.ltb_lt. apply Nat.leb_gt in Hfull. exact Hfull.
Qed.

Lemma getconn_ok_iff env p w :
  is_ok (getconn env p w).2
  = (length (used_of p w) <? maxconn p)%nat && negb (fails env OpGetConn).
Proof.
  unfold getconn. unfold_M. rewrite Nat.ltb_antisym.
  destruct (maxconn p <=? length (used_of p w))%nat; simpl; [reflexivity|].
  destruct (fails env OpGetConn); reflexivity.
Qed.

Lemma putconn_checked_out p c w :
  c ∈ used_of p w →
  putconn p c w =
    (mkWorld (cls_pool w) (pools_created w)
       (<[pool_id p := filter (λ c', c' ≠ c) (used_of p w)]> (pool_used w))
       (db w) None (trace w ++ [EvPutConn c]), Ok tt).
Proof.
  intros H. unfold putconn. unfold_M. now rewrite bool_decide_eq_true_2.
Qed.

Lemma write_inv env a c w w3 r :
  txn w = None →
  write env a c w = (w3, r) →
  cls_pool w3 = cls_pool w ∧ pools_created w3 = pools_created w
  ∧ pool_used w3 = pool_used w
  ∧ db w3 = (if write_commits env a
             then insert_on_conflict (NOW env)
                    (excluded_row env a (stored_param a)) (db w)
             else db w)
  ∧ (∃ evs, trace w3 = trace w ++ evs
            ∧ Forall (λ e, is_pool_event e = false) evs
            ∧ (∀ c', EvCommit c' ∈ evs ↔ c' = c ∧ write_commits env a = true))
  ∧ (r = Ok tt ↔ write_commits env a = true ∧ fails env OpCursorClose = false).
Proof.
  destruct w as [cp pc pu d t tr]; simpl. intros ->.
  unfold write, cursor, execute, commit, cursor_close, write_commits,
    stored_param. unfold_M.
  destruct (fails env OpCursor); simpl.
  { intros [= <- <-]. split_and!; try done; [|naive_solver].
    exists []. rewrite app_nil_r. split_and!; try done. set_solver. }
  destruct (metadata_param (arg_metadata a)) as [m|e]; simpl.
  2:{ intros [= <- <-]. split_and!; try done; [|naive_solver].
      exists [EvCursor c]. split_and!; try done.
      - repeat constructor.
      - set_solver. }
  destruct (fails env OpExecute); simpl.
  { intros [= <- <-]. split_and!; try done; [|naive_solver].
    exists [EvCursor c]. split_and!; try done.
    - repeat constructor.
    - set_solver. }
  destruct (fails env OpCommit); simpl.
  { intros [= <- <-]. split_and!; try done; [|naive_solver].
    exists [EvCursor c; EvExecute c]. simpl. rewrite <- app_assoc.
    split_and!; try done.
    - repeat constructor.
    - set_solver. }
  destruct (fails env OpCursorClose); simpl.
  { intros [= <- <-]. split_and!; try done; [|naive_solver].
    exists [EvCursor c; EvExecute c; EvCommit c]. simpl.
    rewrite <- !app_assoc. split_and!; try done.
    - repeat constructor.
    - set_solver. }
  intros [= <- <-]. split_and!; try done.
  exists [EvCursor c; EvExecute c; EvCommit c; EvCursorClose c;
          EvLog (JobUpdated (arg_job_id a) (arg_status a) (arg_stage a))].
  simpl. rewrite <- !app_assoc. split_and!; try done.
  - repeat constructor.
  - set_solver.
Qed.

Lemma on_error_inv env c e w :
  on_error env c e w =
    if fails env OpRollback
    then (emit (EvLog (UpdateFailed e)) w, Raise (DatabaseError OpRollback))
    else (emit (EvRollback c) (set_txn None (emit (EvLog (UpdateFailed e)) w)), Ok tt).
Proof.
  unfold on_error, rollback. unfold_M. simpl.
  destruct (fails env OpRollback); reflexivity.
Qed.

Lemma used_of_insert p l w cp pc d t tr :
  used_of p (mkWorld cp pc (<[pool_id p := l]> (pool_used w)) d t tr) = l.
Proof. unfold used_of; simpl. now rewrite lookup_insert_eq. Qed.

(** The committed table after a call. *)
Lemma update_status_db env a w :
  db (update_status env a w).1 =
    if write_succeeds env a w
    then insert_on_conflict (NOW env) (excluded_row env a (stored_param a)) (db w)
    else db w.
Proof.
  rewrite update_status_eq. unfold write_succeeds.
  destruct (get_pool env w) as [w1 [p|e]] eqn:Hgp; apply get_pool_inv in Hgp.
  2:{ destruct Hgp as [-> _]. reflexivity. }
  assert (Hdb1 : db w1 = db w) by (destruct Hgp as [[_ ->]|(_ & _ & _ & ->)]; reflexivity).
  rewrite <- (getconn_ok_iff env p w1).
  destruct (getconn env p w1) as [w2 [c|e]] eqn:Hgc; apply getconn_inv in Hgc; simpl.
  2:{ subst w2. exact Hdb1. }
  destruct Hgc as (Hc & Hlt & Hf & Hw2).
  assert (Hin : c ∈ used_of p w2) by (subst w2; rewrite used_of_insert; set_solver).
  assert (Htxn : txn w2 = None) by (subst w2; reflexivity).
  assert (Hdb2 : db w2 = db w1) by (subst w2; reflexivity).
  destruct (write env a c w2) as [w3 r] eqn:Hw.
  apply (write_inv _ _ _ _ _ _ Htxn) in Hw as (_ & _ & Hu3 & Hdb3 & _ & _).
  assert (Hin3 : c ∈ used_of p w3) by (unfold used_of in *; now rewrite Hu3).
  rewrite Hdb2, Hdb1 in Hdb3.
  destruct r as [[]|e].
  - rewrite (putconn_checked_out _ _ _ Hin3). simpl. exact Hdb3.
  - rewrite on_error_inv. destruct (fails env OpRollback).
    + rewrite putconn_checked_out by exact Hin3. simpl. exact Hdb3.
    + rewrite putconn_checked_out by exact Hin3. simpl. exact Hdb3.
Qed.

(** ** The upsert on the table *)

Lemma has_job_true j r : has_job j r = true ↔ job_id r = j.
Proof. unfold has_job. apply bool_decide_eq_true. Qed.

Lemma existsb_has_job j (t : Table) :
  existsb (has_job j) t = true ↔ j ∈ job_ids t.
Proof.
  unfold job_ids. rewrite existsb_exists, list_elem_of_fmap.
  split.
  - intros (r & Hin & Hr). exists r. apply has_job_true in Hr.
    split; [done | now apply list_elem_of_In].
  - intros (r & -> & Hin). exists r. split; [now apply list_elem_of_In|].
    now apply has_job_true.
Qed.

Lemma find_row_Some_job_id j (t : Table) r :
  find_row j t = Some r → job_id r = j.
Proof.
  unfold find_row, rows_of. intros H. apply head_Some_elem_of in H.
  apply list_elem_of_filter in H. tauto.
Qed.

Lemma find_row_None j (t : Table) :
  find_row j t = None ↔ j ∉ job_ids t.
Proof.
  unfold find_row, rows_of, job_ids. induction t as [|r t IH]; simpl.
  - split; [set_solver | done].
  - rewrite filter_cons. destruct (decide (job_id r = j)) as [->|Hne]; simpl.
    + split; [done | set_solver].
    + rewrite IH. set_solver.
Qed.

Lemma find_row_is_Some j (t : Table) :
  is_Some (find_row j t) ↔ j ∈ job_ids t.
Proof.
  destruct (find_row j t) as [r|] eqn:H.
  - split; [intros _ | eauto].
    destruct (decide (j ∈ job_ids t)) as [|Hn]; [done|].
    apply find_row_None in Hn. congruence.
  - split; [intros [? [=]]|]. intros Hin. apply find_row_None in H. done.
Qed.

Section Upsert.
(** One statement: its [NOW()] and the row of its [VALUES] clause. *)
Context (now : Z) (ex : Row).

Lemma do_update_job_id r : job_id (do_update now ex r) = job_id r.
Proof. reflexivity. Qed.

Lemma rows_of_update j (t : Table) :
  rows_of j (map (λ r, if has_job (job_id ex) r then do_update now ex r else r) t)
  = if decide (job_id ex = j) then map (do_update now ex) (rows_of j t)
    else rows_of j t.
Proof.
  unfold rows_of. induction t as [|r t IH]; simpl.
  - now destruct (decide _).
  - rewrite !filter_cons, IH. unfold has_job.
    destruct (decide (job_id ex = j)) as [<-|Hne].
    + destruct (decide (job_id r = job_id ex)) as [Heq|Hne'].
      * rewrite bool_decide_eq_true_2 by done.
        rewrite decide_True by done. reflexivity.
      * rewrite bool_decide_eq_false_2 by done.
        rewrite decide_False by done. reflexivity.
    + destruct (decide (job_id r = job_id ex)) as [Heq|Hne'].
      * rewrite bool_decide_eq_true_2 by done.
        rewrite do_update_job_id.
        rewrite !decide_False by congruence. reflexivity.
      * rewrite bool_decide_eq_false_2 by done. reflexivity.
Qed.

(** The key column after the statement: unchanged on a conflict, one
    key longer otherwise. *)
Lemma job_ids_insert_on_conflict (t : Table) :
  job_ids (insert_on_conflict now ex t)
  = if existsb (has_job (job_id ex)) t then job_ids t else job_ids t ++ [job_id ex].
Proof.
  unfold insert_on_conflict, job_ids.
  destruct (existsb _ t).
  - rewrite map_map. apply map_ext. intros r.
    now destruct (has_job (job_id ex) r).
  - now rewrite map_app.
Qed.

Lemma find_row_insert_conflict (t : Table) r :
  find_row (job_id ex) t = Some r →
  find_row (job_id ex) (insert_on_conflict now ex t) = Some (do_update now ex r).
Proof.
  intros H. unfold insert_on_conflict.
  assert (Hin : existsb (has_job (job_id ex)) t = true).
  { apply existsb_has_job, find_row_is_Some. eauto. }
  rewrite Hin. unfold find_row in *. rewrite rows_of_update, decide_True by done.
  destruct (rows_of (job_id ex) t); simpl in *; congruence.
Qed.

Lemma insert_on_conflict_new (t : Table) :
  find_row (job_id ex) t = None →
  insert_on_conflict now ex t = t ++ [ex]
  ∧ rows_of (job_id ex) (insert_on_conflict now ex t) = [ex].
Proof.
  intros H. unfold insert_on_conflict.
  assert (Hin : existsb (has_job (job_id ex)) t = false).
  { apply not_true_is_false. rewrite existsb_has_job. now apply find_row_None. }
  rewrite Hin. split; [reflexivity|].
  unfold find_row, rows_of in *. rewrite filter_app.
  destruct (filter _ t); [|discriminate]. simpl.
  rewrite filter_cons, decide_True by done. reflexivity.
Qed.

Lemma find_row_app_l j (t t' : Table) r :
  find_row j t = Some r → find_row j (t ++ t') = Some r.
Proof.
  unfold find_row, rows_of. rewrite filter_app.
  destruct (filter _ t); simpl; congruence.
Qed.

Lemma find_row_insert_other (t : Table) j :
  job_id ex ≠ j →
  find_row j (insert_on_conflict now ex t) = find_row j t.
Proof.
  intros Hne. unfold insert_on_conflict. destruct (existsb _ t).
  - unfold find_row. now rewrite rows_of_update, decide_False.
  - unfold find_row, rows_of. rewrite filter_app.
    rewrite (filter_cons _ ex), decide_False by done.
    simpl. now rewrite app_nil_r.
Qed.

Lemma unique_insert_on_conflict (t : Table) :
  unique_job_ids t → unique_job_ids (insert_on_conflict now ex t).
Proof.
  unfold unique_job_ids. rewrite job_ids_insert_on_conflict.
  destruct (existsb _ t) eqn:Hin; [done|].
  intros Hnd. apply NoDup_app. split_and!; [done| |apply NoDup_singleton].
  intros j Hj Hj'. apply list_elem_of_singleton in Hj' as ->.
  apply existsb_has_job in Hj. congruence.
Qed.
End Upsert.

Lemma unique_rows_of j (t : Table) :
  unique_job_ids t → (length (rows_of j t) <= 1)%nat.
Proof.
  unfold unique_job_ids, job_ids, rows_of. induction t as [|r t IH]; simpl.
  - intros _. simpl. lia.
  - intros Hnd. apply NoDup_cons in Hnd as [Hnot Hnd].
    rewrite filter_cons. destruct (decide (job_id r = j)) as [<-|Hne].
    + simpl. assert (Hnil : filter (λ r', job_id r' = job_id r) t = []).
      { apply (proj2 (find_row_None (job_id r) t)) in Hnot as H0.
        unfold find_row, rows_of in H0.
        destruct (filter _ t); [done | discriminate]. }
      rewrite Hnil. simpl. lia.
    + now apply IH.
Qed.

(** ** The shape of a call *)

Lemma filter_ne_fresh (c : nat) (l : list nat) :
  c ∉ l → filter (λ c', c' ≠ c) (c :: l) = l.
Proof.
  intros Hc. rewrite filter_cons, decide_False by (intros H; now apply H).
  induction l as [|x l IH]; [done|].
  rewrite filter_cons. apply not_elem_of_cons in Hc as [Hx Hl].
  rewrite decide_True by congruence. now rewrite IH.
Qed.

Lemma setup_not_pool_event (l : list Event) :
  Forall (λ e, is_setup_event e = true) l → Forall (λ e, is_pool_event e = false) l.
Proof.
  intros H. eapply Forall_impl; [exact H|]. now intros [| | | | | | | |[]].
Qed.

Lemma get_pool_trace env w w1 r :
  get_pool env w = (w1, r) →
  ∃ pre, trace w1 = trace w ++ pre ∧ Forall (λ e, is_setup_event e = true) pre.
Proof.
  intros H. apply get_pool_inv in H. destruct r as [p|e].
  - destruct H as [[_ ->]|(_ & _ & _ & ->)]; simpl.
    + exists []. now rewrite app_nil_r.
    + eexists. split; [reflexivity|]. repeat constructor.
  - destruct H as [-> _]. exists []. now rewrite app_nil_r.
Qed.

(** A call either never holds a connection and logs the failure, or
    holds exactly one, between a [getconn] and a final [putconn]. *)
Lemma update_status_shape env a w :
  let w' := (update_status env a w).1 in
  let r := (update_status env a w).2 in
  (∃ pre e,
      trace w' = trace w ++ pre ++ [EvLog (UpdateFailed e)]
      ∧ Forall (λ ev, is_setup_event ev = true) pre
      ∧ pool_used w' = pool_used (get_pool env w).1
      ∧ r = Ok tt
      ∧ write_succeeds env a w = false)
  ∨ (∃ pre c p mid,
      trace w' = trace w ++ pre ++ EvGetConn c :: mid ++ [EvPutConn c]
      ∧ Forall (λ ev, is_setup_event ev = true) pre
      ∧ Forall (λ ev, is_pool_event ev = false) mid
      ∧ (get_pool env w).2 = Ok p
      ∧ (c ∉ used_of p (get_pool env w).1)
      ∧ pool_used w'
        = (<[pool_id p := used_of p (get_pool env w).1]> (pool_used (get_pool env w).1))
      ∧ (∀ c', EvCommit c' ∈ mid ↔ c' = c ∧ write_succeeds env a w = true)
      ∧ ((r = Ok tt ∧ write_succeeds env a w = true
          ∧ fails env OpCursorClose = false)
         ∨ (∃ e, EvLog (UpdateFailed e) ∈ mid
                 ∧ write_succeeds env a w && negb (fails env OpCursorClose) = false
                 ∧ ((fails env OpRollback = false ∧ r = Ok tt
                     ∧ EvRollback c ∈ mid)
                    ∨ (fails env OpRollback = true
                       ∧ r = Raise (DatabaseError OpRollback)))))).
Proof.
  simpl. rewrite update_status_eq. unfold write_succeeds.
  destruct (get_pool env w) as [w1 [p|e]] eqn:Hgp;
    destruct (get_pool_trace _ _ _ _ Hgp) as (pre & Hpre & Hnp); simpl.
  2:{ left. exists pre, e. rewrite Hpre, <- app_assoc. done. }
  rewrite <- (getconn_ok_iff env p w1).
  destruct (getconn env p w1) as [w2 [c|e]] eqn:Hgc; apply getconn_inv in Hgc; simpl.
  2:{ subst w2. left. exists pre, e. rewrite Hpre, <- app_assoc. done. }
  destruct Hgc as (Hc & Hlt & Hf & Hw2). right.
  assert (Hfresh : c ∉ used_of p w1) by (subst c; apply fresh_conn_notin).
  assert (Hin : c ∈ used_of p w2) by (subst w2; rewrite used_of_insert; set_solver).
  assert (Htxn : txn w2 = None) by (subst w2; reflexivity).
  destruct (write env a c w2) as [w3 r] eqn:Hw.
  apply (write_inv _ _ _ _ _ _ Htxn) in Hw
    as (_ & _ & Hu3 & _ & (evs & Htr3 & Hnp3 & Hcommit) & Hr).
  assert (Hin3 : c ∈ used_of p w3) by (unfold used_of in *; now rewrite Hu3).
  assert (Hused3 : used_of p w3 = c :: used_of p w1).
  { unfold used_of at 1. rewrite Hu3. subst w2. simpl.
    now rewrite lookup_insert_eq. }
  assert (Hpu : <[pool_id p := filter (λ c', c' ≠ c) (used_of p w3)]> (pool_used w3)
                = <[pool_id p := used_of p w1]> (pool_used w1)).
  { rewrite Hused3, filter_ne_fresh by done. rewrite Hu3. subst w2. simpl.
    now rewrite insert_insert_eq. }
  assert (Htr2 : trace w2 = trace w ++ pre ++ [EvGetConn c]).
  { subst w2. simpl. now rewrite Hpre, <- app_assoc. }
  destruct r as [[]|e].
  - rewrite (putconn_checked_out _ _ _ Hin3). simpl.
    exists pre, c, p, evs. rewrite Htr3, Htr2.
    split_and!; try done; try exact Hpu.
    + now rewrite <- !app_assoc.
    + left. destruct Hr as [Hr _]. specialize (Hr eq_refl) as [Hr1 Hr2].
      now rewrite Hr1.
  - assert (Hnot : write_commits env a && negb (fails env OpCursorClose) = false).
    { destruct (write_commits env a) eqn:Hwc; [|done].
      destruct (fails env OpCursorClose) eqn:Hcl; [done|].
      destruct Hr as [_ Hr]. now specialize (Hr (conj eq_refl eq_refl)). }
    rewrite on_error_inv. destruct (fails env OpRollback) eqn:Hrb.
    + rewrite putconn_checked_out by exact Hin3. simpl.
      exists pre, c, p, (evs ++ [EvLog (UpdateFailed e)]).
      rewrite Htr3, Htr2. split_and!; try done; try exact Hpu.
      * now rewrite <- !app_assoc.
      * apply Forall_app. split; [done | repeat constructor].
      * intros c'. rewrite <- Hcommit. set_solver.
      * right. exists e. split_and!; [set_solver|done|]. right. done.
    + rewrite putconn_checked_out by exact Hin3. simpl.
      exists pre, c, p, (evs ++ [EvLog (UpdateFailed e); EvRollback c]).
      rewrite Htr3, Htr2. split_and!; try done; try exact Hpu.
      * now rewrite <- !app_assoc.
      * apply Forall_app. split; [done | repeat constructor].
      * intros c'. rewrite <- Hcommit. set_solver.
      * right. exists e. split_and!; [set_solver|done|].
        left. split_and!; [done|done|set_solver].
Qed.

Lemma call_events_eq env a w evs :
  trace (update_status env a w).1 = trace w ++ evs →
  call_events env a w = evs.
Proof. intros H. unfold call_events. rewrite H. apply drop_app_length. Qed.

Lemma not_pool_event_getconn (l : list Event) c :
  Forall (λ ev, is_pool_event ev = false) l → EvGetConn c ∉ l.
Proof.
  intros Hl Hin. rewrite Forall_forall in Hl. specialize (Hl _ Hin). discriminate.
Qed.

Lemma setup_not_commit (l : list Event) c :
  Forall (λ e, is_setup_event e = true) l → EvCommit c ∉ l.
Proof.
  intros Hl Hin. rewrite Forall_forall in Hl. specialize (Hl _ Hin). discriminate.
Qed.

(** The class attribute and the count of pools after a call are those
    [get_pool] leaves. *)
Lemma update_status_pool env a w :
  cls_pool (update_status env a w).1 = cls_pool (get_pool env w).1
  ∧ pools_created (update_status env a w).1 = pools_created (get_pool env w).1.
Proof.
  rewrite update_status_eq.
  destruct (get_pool env w) as [w1 [p|e]] eqn:Hgp; [|done]. simpl.
  destruct (getconn env p w1) as [w2 [c|e]] eqn:Hgc; apply getconn_inv in Hgc; simpl.
  2:{ now subst w2. }
  destruct Hgc as (Hc & Hlt & Hf & Hw2).
  assert (Hin : c ∈ used_of p w2) by (subst w2; rewrite used_of_insert; set_solver).
  assert (Htxn : txn w2 = None) by (subst w2; reflexivity).
  assert (H2 : cls_pool w2 = cls_pool w1 ∧ pools_created w2 = pools_created w1)
    by (now subst w2).
  destruct (write env a c w2) as [w3 r] eqn:Hw.
  apply (write_inv _ _ _ _ _ _ Htxn) in Hw as (Hcp & Hpc & Hu3 & _).
  assert (Hin3 : c ∈ used_of p w3) by (unfold used_of in *; now rewrite Hu3).
  destruct H2 as [H2 H2']. rewrite H2 in Hcp. rewrite H2' in Hpc.
  destruct r as [[]|e].
  - now rewrite (putconn_checked_out _ _ _ Hin3).
  - rewrite on_error_inv.
    destruct (fails env OpRollback); now rewrite putconn_checked_out by exact Hin3.
Qed.

(** ** Metadata *)

Lemma union_shallow_merge (o n : jsonb) : n ∪ o = shallow_merge o n.
Proof.
  apply map_eq; intros k. unfold shallow_merge.
  rewrite lookup_union, lookup_merge.
  destruct (n !! k), (o !! k); reflexivity.
Qed.

(** The [COALESCE] of line 74 computes the merge the specification
    describes. *)
Lemma coalesce_merge (old new : option jsonb) :
  COALESCE [jsonb_concat old new; old; new] = merged_as_stated old new.
Proof.
  destruct old as [o|], new as [n|]; simpl; try reflexivity.
  now rewrite union_shallow_merge.
Qed.

Lemma json_dumps_lookup (d : pydict) (j : jsonb) (k : string) :
  json_dumps d = Some j → j !! k = d !! k ≫= to_json.
Proof.
  unfold json_dumps. destruct (forallb _ _); [|discriminate].
  intros [= <-]. apply lookup_omap.
Qed.

Lemma metadata_do_update now env a m r :
  metadata (do_update now (excluded_row env a m) r)
  = merged_as_stated (metadata r) m.
Proof. apply coalesce_merge. Qed.

Lemma json_dumps_empty : json_dumps ∅ = Some ∅.
Proof.
  unfold json_dumps. rewrite map_to_list_empty. simpl.
  now rewrite omap_empty.
Qed.

Lemma truthy_false (m : option pydict) :
  truthy m = false ↔ m = None ∨ m = Some ∅.
Proof.
  destruct m as [d|]; simpl; [|naive_solver].
  rewrite negb_false_iff, Nat.eqb_eq, map_size_empty_iff. naive_solver.
Qed.

Lemma stored_param_supplied a :
  is_ok (metadata_param (arg_metadata a)) = true →
  stored_param a = supplied_nonempty a.
Proof.
  unfold stored_param, supplied_nonempty, supplied, metadata_param.
  destruct (arg_metadata a) as [d|]; [|reflexivity].
  destruct (truthy (Some d)); [|reflexivity]. simpl.
  now destruct (json_dumps d).
Qed.

Lemma write_succeeds_serialisable env a w :
  write_succeeds env a w = true → is_ok (metadata_param (arg_metadata a)) = true.
Proof.
  unfold write_succeeds, write_commits.
  destruct (get_pool env w) as [w1 [p|e]]; [|done].
  rewrite !andb_true_iff. tauto.
Qed.

Lemma keyval_merged k (old new : option jsonb) :
  keyval k (merged_as_stated old new)
  = match keyval k new with
    | Some v => Some v
    | None => keyval k old
    end.
Proof.
  destruct old as [o|], new as [n|]; simpl; try reflexivity.
  - unfold shallow_merge. rewrite lookup_merge.
    destruct (o !! k), (n !! k); reflexivity.
  - now destruct (n !! k).
Qed.

(** The stored row after a write that commits on a key already there. *)
Lemma update_status_existing env a w r :
  find_row (arg_job_id a) (db w) = Some r →
  write_succeeds env a w = true →
  find_row (arg_job_id a) (db (update_status env a w).1)
  = Some (do_update (NOW env) (excluded_row env a (supplied_nonempty a)) r).
Proof.
  intros Hr Hok. rewrite update_status_db, Hok.
  rewrite stored_param_supplied by (eapply write_succeeds_serialisable; eauto).
  now apply (find_row_insert_conflict (NOW env) (excluded_row env a _)).
Qed.

(** The table after a write that commits on a key not yet there. *)
Lemma update_status_new env a w :
  find_row (arg_job_id a) (db w) = None →
  write_succeeds env a w = true →
  db (update_status env a w).1
  = db w ++ [excluded_row env a (supplied_nonempty a)]
  ∧ rows_of (arg_job_id a) (db (update_status env a w).1)
    = [excluded_row env a (supplied_nonempty a)].
Proof.
  intros Hr Hok. rewrite update_status_db, Hok.
  rewrite stored_param_supplied by (eapply write_succeeds_serialisable; eauto).
  now apply (insert_on_conflict_new (NOW env) (excluded_row env a _)).
Qed.

(** A call changes no row under another key, and changes nothing when
    its write does not commit. *)
Lemma update_status_other env a w j :
  arg_job_id a ≠ j ∨ write_succeeds env a w = false →
  find_row j (db (update_status env a w).1) = find_row j (db w).
Proof.
  intros H. rewrite update_status_db.
  destruct (write_succeeds env a w); [|reflexivity].
  destruct H as [H|H]; [|discriminate].
  now apply (find_row_insert_other (NOW env) (excluded_row env a _)).
Qed.

(** * The claims *)

(** ** C1: metadata is merged *)

(** C1, as stated, fails: on a record whose metadata is NULL, a call
    that commits and supplies the empty mapping leaves NULL in the
    column, where the sentence "the new metadata is stored as-is"
    announces the empty JSON object. *)
Lemma empty_metadata_not_stored_as_is :
  write_succeeds (env_at 2000) (call_job1 (Some ∅)) (process_with_job1 None) = true
  ∧ ¬ metadata_merged_as_stated (env_at 2000) (call_job1 (Some ∅))
        (process_with_job1 None).
Proof.
  split; [reflexivity|]. intros H.
  destruct (H (row_job1 None) eq_refl) as (r' & Hfind & Hmeta).
  rewrite (update_status_existing _ _ _ (row_job1 None)) in Hfind by reflexivity.
  injection Hfind as <-. discriminate Hmeta.
Qed.

(** C1, amended: for every call whose write commits on a job_id that
    already has a record, the stored metadata after the call is the
    shallow merge of the old stored metadata with the supplied one, an
    empty mapping counting as none supplied: key by key the new value
    wins and a key absent from the new write keeps its old value; when
    the call supplies no metadata or an empty mapping the old metadata
    is unchanged; when there was no old metadata, a non-empty new
    metadata is stored as-is and NULL stays otherwise. *)
Theorem update_status_merges_metadata env a w r :
  find_row (arg_job_id a) (db w) = Some r →
  write_succeeds env a w = true →
  ∃ r', find_row (arg_job_id a) (db (update_status env a w).1) = Some r'
        ∧ metadata r' = merged_as_stated (metadata r) (supplied_nonempty a)
        ∧ (∀ k, keyval k (metadata r')
                = match keyval k (supplied a) with
                  | Some v => Some v
                  | None => keyval k (metadata r)
                  end)
        ∧ (truthy (arg_metadata a) = false → metadata r' = metadata r)
        ∧ (metadata r = None → metadata r' = supplied_nonempty a).
Proof.
  intros Hr Hok. eexists. split; [exact (update_status_existing env a w r Hr Hok)|].
  rewrite !metadata_do_update. split_and!.
  - reflexivity.
  - intros k. rewrite keyval_merged. unfold supplied_nonempty.
    destruct (truthy (arg_metadata a)) eqn:Ht; [reflexivity|].
    apply truthy_false in Ht. unfold supplied.
    destruct Ht as [-> | ->]; simpl; [reflexivity|].
    rewrite json_dumps_empty. simpl. now rewrite lookup_empty.
  - intros Ht. unfold supplied_nonempty. rewrite Ht.
    now destruct (metadata r).
  - intros ->. reflexivity.
Qed.

Lemma update_status_merges_metadata_witness :
  ∃ r', find_row "job1"
          (db (update_status (env_at 2000) (call_job1 (Some {[ "b" := PyInt 2 ]}))
                 (process_with_job1 (Some {[ "a" := JNum 1 ]}))).1) = Some r'
        ∧ metadata r' = Some {[ "a" := JNum 1; "b" := JNum 2 ]}.
Proof.
  destruct (update_status_merges_metadata (env_at 2000)
              (call_job1 (Some {[ "b" := PyInt 2 ]}))
              (process_with_job1 (Some {[ "a" := JNum 1 ]}))
              (row_job1 (Some {[ "a" := JNum 1 ]}))
              ltac:(vm_compute; reflexivity) ltac:(vm_compute; reflexivity))
    as (r' & Hfind & Hmeta & _).
  exists r'. split; [exact Hfind|]. rewrite Hmeta. vm_compute. reflexivity.
Defined.

(** ** C2: failures of the write *)

(** [write_succeeds] is the condition under which [conn.commit()]
    returns in the call. *)
Lemma write_succeeds_commit_event env a w :
  write_succeeds env a w = true ↔ ∃ c, EvCommit c ∈ call_events env a w.
Proof.
  destruct (update_status_shape env a w)
    as [(pre & e & Htr & Hpre & _ & _ & Hno)
       |(pre & c & p & mid & Htr & Hpre & _ & _ & _ & _ & Hcommit & _)];
    rewrite (call_events_eq _ _ _ _ Htr).
  - rewrite Hno. split; [discriminate|]. intros (c & Hin).
    apply elem_of_app in Hin as [Hin|Hin].
    + now apply setup_not_commit in Hin.
    + apply list_elem_of_singleton in Hin. discriminate.
  - split.
    + intros H. exists c. apply elem_of_app. right. apply elem_of_cons. right.
      apply elem_of_app. left. now apply Hcommit.
    + intros (c' & Hin).
      apply elem_of_app in Hin as [Hin|Hin]; [now apply setup_not_commit in Hin|].
      apply elem_of_cons in Hin as [[=]|Hin].
      apply elem_of_app in Hin as [Hin|Hin].
      * now apply Hcommit in Hin.
      * apply list_elem_of_singleton in Hin. discriminate.
Qed.

(** The call returns normally, or raises what [conn.rollback()] raised
    in the handler. *)
Lemma update_status_outcome env a w :
  (update_status env a w).2 = Ok tt
  ∨ ((update_status env a w).2 = Raise (DatabaseError OpRollback)
     ∧ fails env OpRollback = true).
Proof.
  destruct (update_status_shape env a w)
    as [(pre & e & _ & _ & _ & Hr & _)
       |(pre & c & p & mid & _ & _ & _ & _ & _ & _ & _ & Hr)].
  - now left.
  - destruct Hr as [(Hr & _)|(e & _ & _ & [(_ & Hr & _)|(Hf & Hr)])]; auto.
Qed.

(** The call raises exactly when it holds a connection, the write
    raises, and rolling back raises too. *)
Lemma update_status_raises_iff env a w :
  (update_status env a w).2 = Raise (DatabaseError OpRollback)
  ↔ (∃ c, EvGetConn c ∈ call_events env a w)
    ∧ write_succeeds env a w && negb (fails env OpCursorClose) = false
    ∧ fails env OpRollback = true.
Proof.
  destruct (update_status_shape env a w)
    as [(pre & e & Htr & Hpre & _ & Hr & _)
       |(pre & c & p & mid & Htr & _ & _ & _ & _ & _ & _ & Hr)];
    rewrite (call_events_eq _ _ _ _ Htr).
  - rewrite Hr. split; [discriminate|]. intros ((c & Hin) & _).
    apply setup_not_pool_event in Hpre.
    apply elem_of_app in Hin as [Hin|Hin];
      [now apply not_pool_event_getconn in Hin|].
    apply list_elem_of_singleton in Hin. discriminate.
  - destruct Hr as [(Hr & Hok & Hcl)|(e & _ & Hw & [(Hf & Hr & _)|(Hf & Hr)])].
    + rewrite Hr, Hok, Hcl. split; [discriminate|]. now intros (_ & ? & _).
    + rewrite Hr, Hf. split; [discriminate|]. now intros (_ & _ & ?).
    + rewrite Hr, Hf, Hw. split; [|done]. intros _. split_and!; [|done..].
      exists c. set_solver.
Qed.

(** As long as rolling back goes through, whatever else fails is caught:
    the call returns normally. *)
Lemma update_status_swallows env a w :
  fails env OpRollback = false → returns_normally env a w.
Proof.
  intros Hf. unfold returns_normally.
  destruct (update_status_outcome env a w) as [H|[_ H]]; congruence.
Qed.

(** A call that does not both commit and close its cursor logs the
    failure; if it held a connection and rolling back goes through, the
    transaction is rolled back. *)
Lemma update_status_failure_handled env a w :
  write_succeeds env a w && negb (fails env OpCursorClose) = false →
  (∃ e, EvLog (UpdateFailed e) ∈ call_events env a w)
  ∧ (∀ c, EvGetConn c ∈ call_events env a w → fails env OpRollback = false →
          EvRollback c ∈ call_events env a w).
Proof.
  intros Hfail.
  destruct (update_status_shape env a w)
    as [(pre & e & Htr & Hpre & _ & _ & _)
       |(pre & c & p & mid & Htr & Hpre & Hmid & _ & _ & _ & _ & Hr)];
    rewrite (call_events_eq _ _ _ _ Htr).
  - split; [exists e; set_solver|]. intros c Hin.
    apply setup_not_pool_event in Hpre.
    apply elem_of_app in Hin as [Hin|Hin];
      [now apply not_pool_event_getconn in Hin|].
    apply list_elem_of_singleton in Hin. discriminate.
  - destruct Hr as [(_ & Hok & Hcl)|(e & He & _ & Hr)].
    { rewrite Hok, Hcl in Hfail. discriminate. }
    split; [exists e; set_solver|]. intros c' Hin Hrb.
    apply setup_not_pool_event in Hpre.
    assert (c' = c) as ->.
    { apply elem_of_app in Hin as [Hin|Hin];
        [now apply not_pool_event_getconn in Hin|].
      apply elem_of_cons in Hin as [[= ->]|Hin]; [done|].
      apply elem_of_app in Hin as [Hin|Hin];
        [now apply not_pool_event_getconn in Hin|].
      apply list_elem_of_singleton in Hin. discriminate. }
    destruct Hr as [(_ & _ & Hin')|(Hf & _)]; [set_solver | congruence].
Qed.

(** Whatever happens, the table is the old one or the old one with the
    whole statement applied: no part of a record is committed. *)
Lemma update_status_atomic env a w :
  db (update_status env a w).1 = db w
  ∨ db (update_status env a w).1
    = insert_on_conflict (NOW env) (excluded_row env a (stored_param a)) (db w).
Proof.
  rewrite update_status_db. destruct (write_succeeds env a w); auto.
Qed.

(** C2 does not hold of the code: when the connection is lost while the
    statement runs, [cursor.execute] raises, the handler logs the
    failure and calls [conn.rollback()], which raises in turn; nothing
    catches that exception, and the call raises it to its caller after
    the connection went back to the pool.  The table is unchanged. *)
Theorem update_status_raises_when_rollback_fails :
  let result := update_status env_connection_lost (call_job1 None) fresh_process in
  result.2 = Raise (DatabaseError OpRollback)
  ∧ db result.1 = db fresh_process
  ∧ call_events env_connection_lost (call_job1 None) fresh_process
    = [ EvNewPool 0; EvLog PoolInitialized; EvGetConn 1; EvCursor 1;
        EvLog (UpdateFailed (DatabaseError OpExecute)); EvPutConn 1 ].
Proof.
  vm_compute. split_and!; reflexivity.
Qed.

(** ** C3: status, stage and error message are replaced *)

(** C3: for every call whose write commits on a job_id that already has
    a record, the stored status, stage and error_message are those of
    the call, whatever was stored; a call without an error message
    leaves NULL, clearing a stored error. *)
Theorem update_status_replaces_status env a w r :
  find_row (arg_job_id a) (db w) = Some r →
  write_succeeds env a w = true →
  ∃ r', find_row (arg_job_id a) (db (update_status env a w).1) = Some r'
        ∧ status r' = arg_status a
        ∧ stage r' = arg_stage a
        ∧ error_message r' = arg_error_message a
        ∧ (arg_error_message a = None → error_message r' = None).
Proof.
  intros Hr Hok. eexists. split; [exact (update_status_existing env a w r Hr Hok)|].
  simpl. split_and!; try reflexivity. intros H; exact H.
Qed.

Lemma update_status_replaces_status_witness :
  ∃ r', find_row "job1"
          (db (update_status (env_at 2000) (call_job1 None)
                 (process_with_job1 None)).1) = Some r'
        ∧ status r' = "completed" ∧ stage r' = "forecasting"
        ∧ error_message (row_job1 None) = Some "timeout"
        ∧ error_message r' = None.
Proof.
  destruct (update_status_replaces_status (env_at 2000) (call_job1 None)
              (process_with_job1 None) (row_job1 None) eq_refl eq_refl)
    as (r' & Hfind & Hst & Hsg & Herr & _).
  exists r'. split_and!; [exact Hfind | exact Hst | exact Hsg | reflexivity | exact Herr].
Defined.

(** ** C4: the first write creates the record *)

(** C4, as stated, fails: a first write with the empty mapping stores
    NULL in the metadata column, not the mapping as given. *)
Lemma empty_metadata_not_created_as_given :
  write_succeeds (env_at 2000) (call_job1 (Some ∅)) fresh_process = true
  ∧ ¬ record_created_as_given (env_at 2000) (call_job1 (Some ∅)) fresh_process.
Proof.
  split; [reflexivity|]. intros H. specialize (H eq_refl).
  destruct (update_status_new (env_at 2000) (call_job1 (Some ∅)) fresh_process
              ltac:(vm_compute; reflexivity) ltac:(vm_compute; reflexivity))
    as [_ Hrows].
  rewrite Hrows in H. injection H as H. discriminate H.
Qed.

(** C4, amended: for every call whose write commits with a job_id that
    has no record, exactly one record is added, holding the given
    job_id, series_id, status, stage and error_message, the metadata as
    given when it is a non-empty mapping and NULL when it is absent or
    empty, and updated_at set to the server time of the write. *)
Theorem update_status_creates_record env a w :
  find_row (arg_job_id a) (db w) = None →
  write_succeeds env a w = true →
  let created :=
    {| job_id := arg_job_id a;
       series_id := arg_series_id a;
       status := arg_status a;
       stage := arg_stage a;
       error_message := arg_error_message a;
       metadata := supplied_nonempty a;
       updated_at := NOW env |} in
  db (update_status env a w).1 = db w ++ [created]
  ∧ rows_of (arg_job_id a) (db (update_status env a w).1) = [created]
  ∧ (truthy (arg_metadata a) = true → metadata created = supplied a)
  ∧ (truthy (arg_metadata a) = false → metadata created = None).
Proof.
  intros Hr Hok. simpl.
  destruct (update_status_new env a w Hr Hok) as [Hdb Hrows].
  split_and!; [exact Hdb | exact Hrows | |];
    unfold supplied_nonempty; now intros ->.
Qed.

Lemma update_status_creates_record_witness :
  db (update_status (env_at 2000) (call_job1 (Some {[ "rows" := PyInt 100 ]}))
        fresh_process).1
  = [ mkRow "job1" "MSFT" "completed" "forecasting" None
        (Some {[ "rows" := JNum 100 ]}) 2000 ].
Proof.
  destruct (update_status_creates_record (env_at 2000)
              (call_job1 (Some {[ "rows" := PyInt 100 ]})) fresh_process
              ltac:(vm_compute; reflexivity) ltac:(vm_compute; reflexivity))
    as [Hdb _].
  rewrite Hdb. vm_compute. reflexivity.
Defined.

(** ** C5: one record per job_id *)

Lemma update_status_job_ids env a w :
  job_ids (db (update_status env a w).1)
  = if write_succeeds env a w && negb (existsb (has_job (arg_job_id a)) (db w))
    then job_ids (db w) ++ [arg_job_id a]
    else job_ids (db w).
Proof.
  rewrite update_status_db. destruct (write_succeeds env a w); [|reflexivity].
  rewrite job_ids_insert_on_conflict. simpl.
  now destruct (existsb _ (db w)).
Qed.

Lemma update_status_unique env a w :
  unique_job_ids (db w) → unique_job_ids (db (update_status env a w).1).
Proof.
  rewrite update_status_db. destruct (write_succeeds env a w); [|done].
  apply unique_insert_on_conflict.
Qed.

Lemma run_calls_unique cs w :
  unique_job_ids (db w) → unique_job_ids (db (run_calls cs w)).
Proof.
  revert w. induction cs as [|[env a] cs IH]; intros w H; simpl; [done|].
  apply IH. now apply update_status_unique.
Qed.

Lemma run_calls_job_ids_prefix cs w :
  job_ids (db w) `prefix_of` job_ids (db (run_calls cs w)).
Proof.
  revert w. induction cs as [|[env a] cs IH]; intros w; simpl; [done|].
  etransitivity; [|apply IH]. rewrite update_status_job_ids.
  destruct (_ && _); [|done]. now apply prefix_app_r.
Qed.

Lemma map_update_unique (f : Row → Row) j (t : Table) i r :
  unique_job_ids t → t !! i = Some r → job_id r = j →
  map (λ x, if has_job j x then f x else x) t = <[i := f r]> t.
Proof.
  revert i. induction t as [|x t IH]; intros i Hu Hi Hj; [discriminate|].
  unfold unique_job_ids, job_ids in Hu. simpl in Hu.
  apply NoDup_cons in Hu as [Hnot Hu]. destruct i as [|i]; simpl in *.
  - injection Hi as ->. rewrite (proj2 (has_job_true j r)) by done. f_equal.
    rewrite <- (map_id t) at 2. apply map_ext_in. intros y Hy.
    destruct (has_job j y) eqn:Hy'; [|done]. apply has_job_true in Hy'.
    exfalso. apply Hnot. rewrite Hj, <- Hy'. apply list_elem_of_fmap.
    exists y. split; [done | now apply list_elem_of_In].
  - assert (Hx : has_job j x = false).
    { apply not_true_is_false. intros Hx. apply has_job_true in Hx.
      apply Hnot. rewrite Hx, <- Hj. apply list_elem_of_fmap.
      exists r. split; [done|]. eapply list_elem_of_lookup_2. exact Hi. }
    rewrite Hx. f_equal. now apply IH.
Qed.

(** C5: after any sequence of calls on a table with at most one record
    per job_id, there is still at most one record per job_id, and the
    records that were there are still there, in their places.  A call
    that commits for a job_id that has a record rewrites that record
    where it stands: the table is the same but at the index of the
    record, which now holds the job_id and series_id it had, the status,
    stage and error_message of the call, the merged metadata and the
    server time; the keys of the table are as they were.  A call that
    commits for a job_id that has none adds one record at the end, with
    the fields of the call.  A call that does not commit leaves the
    table as it is.  Nothing removes a record. *)
Theorem one_record_per_job cs w :
  unique_job_ids (db w) →
  let wn := run_calls cs w in
  unique_job_ids (db wn)
  ∧ (∀ j, (length (rows_of j (db wn)) <= 1)%nat)
  ∧ job_ids (db w) `prefix_of` job_ids (db wn)
  ∧ (∀ env a,
       let w' := (update_status env a wn).1 in
       (arg_job_id a ∈ job_ids (db wn) → job_ids (db w') = job_ids (db wn))
       ∧ (arg_job_id a ∈ job_ids (db wn) → write_succeeds env a wn = true →
          ∃ i r r',
            db wn !! i = Some r ∧ job_id r = arg_job_id a
            ∧ db w' = <[i := r']> (db wn)
            ∧ job_id r' = arg_job_id a ∧ series_id r' = series_id r
            ∧ status r' = arg_status a ∧ stage r' = arg_stage a
            ∧ error_message r' = arg_error_message a
            ∧ metadata r' = merged_as_stated (metadata r) (supplied_nonempty a)
            ∧ updated_at r' = NOW env)
       ∧ (arg_job_id a ∉ job_ids (db wn) → write_succeeds env a wn = true →
          job_ids (db w') = job_ids (db wn) ++ [arg_job_id a]
          ∧ db w'
            = db wn ++ [ mkRow (arg_job_id a) (arg_series_id a) (arg_status a)
                           (arg_stage a) (arg_error_message a)
                           (supplied_nonempty a) (NOW env) ])
       ∧ (write_succeeds env a wn = false → db w' = db wn)).
Proof.
  intros Hu. simpl. pose proof (run_calls_unique cs w Hu) as Hn.
  split_and!; [done | intros j; now apply unique_rows_of
              | apply run_calls_job_ids_prefix |].
  intros env a. split_and!.
  - intros Hin. rewrite update_status_job_ids.
    apply existsb_has_job in Hin. rewrite Hin. now rewrite andb_false_r.
  - intros Hin Hok.
    pose proof Hin as Hi. unfold job_ids in Hi.
    apply list_elem_of_lookup in Hi as (i & Hi).
    change (map job_id ?l) with (job_id <$> l) in Hi.
    rewrite list_lookup_fmap in Hi.
    destruct (db (run_calls cs w) !! i) as [r|] eqn:Hr; [|discriminate].
    simpl in Hi. injection Hi as Hkey.
    exists i, r,
      (do_update (NOW env) (excluded_row env a (supplied_nonempty a)) r).
    split_and!; try done.
    + rewrite update_status_db, Hok.
      rewrite stored_param_supplied by (eapply write_succeeds_serialisable; eauto).
      unfold insert_on_conflict. apply existsb_has_job in Hin.
      simpl. rewrite Hin. now apply map_update_unique.
    + apply metadata_do_update.
  - intros Hnin Hok. split.
    + rewrite update_status_job_ids, Hok.
      destruct (existsb _ _) eqn:Hex; [|reflexivity].
      apply existsb_has_job in Hex. contradiction.
    + apply find_row_None in Hnin.
      exact (proj1 (update_status_new env a (run_calls cs w) Hnin Hok)).
  - intros Hf. now rewrite update_status_db, Hf.
Qed.

Lemma one_record_per_job_witness :
  let first := mkArgs "job1" "AAPL" "running" "ingestion" (Some "slow") None in
  let w1 := run_calls [ (env_at 1000, first) ] fresh_process in
  let w2 := (update_status (env_at 2000) (call_job1 None) w1).1 in
  unique_job_ids (db w2)
  ∧ db w1 = [ mkRow "job1" "AAPL" "running" "ingestion" (Some "slow") None 1000 ]
  ∧ ∃ i r', db w2 = <[i := r']> (db w1)
            ∧ series_id r' = "AAPL" ∧ status r' = "completed"
            ∧ stage r' = "forecasting" ∧ error_message r' = None
            ∧ updated_at r' = 2000.
Proof.
  intros first w1 w2.
  destruct (one_record_per_job [ (env_at 1000, first) ] fresh_process
              ltac:(apply NoDup_nil_2)) as (_ & _ & _ & Hcall).
  destruct (one_record_per_job
              [ (env_at 1000, first); (env_at 2000, call_job1 None) ] fresh_process
              ltac:(apply NoDup_nil_2)) as (Hu & _).
  destruct (Hcall (env_at 2000) (call_job1 None)) as (_ & Hplace & _).
  destruct Hplace as (i & r & r' & Hi & _ & Hdb & _ & Hser & Hst & Hsg & Herr & _ & Hat).
  { vm_compute. apply elem_of_cons. now left. }
  { vm_compute. reflexivity. }
  split_and!; [exact Hu | vm_compute; reflexivity |].
  exists i, r'.
  split_and!; [exact Hdb | | exact Hst | exact Hsg | exact Herr | exact Hat].
  rewrite Hser. destruct i as [|i]; [|vm_compute in Hi; discriminate].
  vm_compute in Hi. now injection Hi as <-.
Defined.

(** ** C6: the connection goes back to the pool *)

(** C6: in a call that obtains a connection from the pool, on the path
    that succeeds and on every path that fails, [putconn] on that
    connection is the last thing the call does; it is the only
    connection the call obtains; afterwards it is not checked out, and
    the table of checked-out connections of a pool that was already
    there is as before the call. *)
Theorem connection_returned env a w c :
  EvGetConn c ∈ call_events env a w →
  let w' := (update_status env a w).1 in
  last (call_events env a w) = Some (EvPutConn c)
  ∧ (∃ pre mid,
       call_events env a w = pre ++ EvGetConn c :: mid ++ [EvPutConn c]
       ∧ Forall (λ ev, is_pool_event ev = false) pre
       ∧ Forall (λ ev, is_pool_event ev = false) mid)
  ∧ (∀ p, cls_pool w' = Some p →
          (c ∉ used_of p w')
          ∧ (cls_pool w = Some p → used_of p w' = used_of p w)).
Proof.
  intros Hin. simpl.
  destruct (update_status_shape env a w)
    as [(pre & e & Htr & Hpre & _)
       |(pre & c' & p & mid & Htr & Hpre & Hmid & Hgp & Hfresh & Hpu & _)].
  - rewrite <- app_assoc in Htr || idtac.
    rewrite (call_events_eq _ _ _ _ Htr) in Hin.
    apply elem_of_app in Hin as [Hin|Hin].
    + apply setup_not_pool_event in Hpre.
      now apply not_pool_event_getconn in Hin.
    + apply list_elem_of_singleton in Hin. discriminate.
  - rewrite (call_events_eq _ _ _ _ Htr) in *.
    apply setup_not_pool_event in Hpre.
    assert (c = c') as <-.
    { apply elem_of_app in Hin as [Hin|Hin];
        [now apply not_pool_event_getconn in Hin|].
      apply elem_of_cons in Hin as [[= ->]|Hin]; [done|].
      apply elem_of_app in Hin as [Hin|Hin];
        [now apply not_pool_event_getconn in Hin|].
      apply list_elem_of_singleton in Hin. discriminate. }
    split_and!.
    + rewrite app_comm_cons, app_assoc. apply last_snoc.
    + exists pre, mid. done.
    + intros q Hq.
      destruct (update_status_pool env a w) as [Hcp _]. rewrite Hq in Hcp.
      destruct (get_pool env w) as [w1 [p1|e1]] eqn:Hg; [|discriminate].
      simpl in *. injection Hgp as <-.
      apply get_pool_inv in Hg.
      assert (q = p1) as ->.
      { destruct Hg as [[Hc ->]|(_ & _ & _ & ->)]; simpl in Hcp; congruence. }
      assert (Hused : used_of p1 (update_status env a w).1 = used_of p1 w1).
      { unfold used_of at 1. rewrite Hpu. now rewrite lookup_insert_eq. }
      rewrite Hused. split; [done|].
      intros Hw. destruct Hg as [[_ ->]|(Hnone & _)]; [done | congruence].
Qed.

Lemma connection_returned_witness :
  last (call_events env_connection_lost (call_job1 None) fresh_process)
  = Some (EvPutConn 1%nat).
Proof.
  destruct (connection_returned env_connection_lost (call_job1 None) fresh_process 1%nat)
    as [Hlast _].
  - vm_compute. set_solver.
  - exact Hlast.
Defined.

(** ** C7: one pool for the process *)






(** [build_pool] is the first branch of [get_pool], [after_test] what
    follows its test: a thread alone in [get_pool] does [after_test] on
    what it has just seen. *)
Lemma get_pool_after_test env w :
  get_pool env w = after_test env (cls_pool w) w.
Proof.
  unfold get_pool, after_test, build_pool. unfold_M.
  now destruct (cls_pool w).
Qed.




(** ** C8: [updated_at] is the time of the write *)

Lemma update_status_stamps env a w :
  write_succeeds env a w = true →
  ∃ r', find_row (arg_job_id a) (db (update_status env a w).1) = Some r'
        ∧ updated_at r' = NOW env.
Proof.
  intros Hok. destruct (find_row (arg_job_id a) (db w)) as [r|] eqn:Hr.
  - eexists. split; [exact (update_status_existing env a w r Hr Hok)|]. reflexivity.
  - destruct (update_status_new env a w Hr Hok) as [_ Hrows].
    eexists. split; [unfold find_row; now rewrite Hrows|]. reflexivity.
Qed.

Lemma run_calls_quiet j cs w :
  quiet_for j cs w → find_row j (db (run_calls cs w)) = find_row j (db w).
Proof.
  revert w. induction cs as [|[env a] cs IH]; intros w; simpl; [done|].
  intros [Hq Hrest]. rewrite (IH _ Hrest). now apply update_status_other.
Qed.

(** C8, as stated, fails: two writes in a row that commit for one
    job_id and read the same server time leave updated_at where it was,
    and when the second reads an earlier server time than the first,
    updated_at goes back. *)
Lemma updated_at_does_not_always_increase :
  ¬ updated_at_increases_as_stated (env_at 2000) (call_job1 None)
      (env_at 2000) (call_job1 None) fresh_process
  ∧ ¬ updated_at_increases_as_stated (env_at 2000) (call_job1 None)
        (env_at 1000) (call_job1 None) fresh_process.
Proof.
  split; intros H;
    destruct (H eq_refl ltac:(vm_compute; reflexivity) ltac:(vm_compute; reflexivity))
      as (r1 & r2 & H1 & H2 & Hlt);
    vm_compute in H1, H2; injection H1 as <-; injection H2 as <-;
    vm_compute in Hlt; discriminate Hlt.
Qed.

(** C8, amended: a write that commits sets the record's updated_at to
    the server time of that write, and updated_at stays at that time
    until the next committed write for the same job_id; from one
    committed write for a job_id to the next, the stored updated_at
    strictly increases exactly when the server time of the second write
    is later than that of the first: the statement takes the server
    time as it is and does not compare it with the stored value. *)
Theorem updated_at_is_server_time env1 a1 cs env2 a2 w :
  arg_job_id a2 = arg_job_id a1 →
  write_succeeds env1 a1 w = true →
  let w1 := (update_status env1 a1 w).1 in
  quiet_for (arg_job_id a1) cs w1 →
  let w2 := run_calls cs w1 in
  write_succeeds env2 a2 w2 = true →
  ∃ r1 r2,
    find_row (arg_job_id a1) (db w1) = Some r1
    ∧ updated_at r1 = NOW env1
    ∧ find_row (arg_job_id a1) (db w2) = Some r1
    ∧ find_row (arg_job_id a1) (db (update_status env2 a2 w2).1) = Some r2
    ∧ updated_at r2 = NOW env2
    ∧ (updated_at r1 < updated_at r2 ↔ NOW env1 < NOW env2).
Proof.
  intros Hj Hok1 w1 Hq w2 Hok2.
  destruct (update_status_stamps env1 a1 w Hok1) as (r1 & Hr1 & Ht1).
  destruct (update_status_stamps env2 a2 w2 Hok2) as (r2 & Hr2 & Ht2).
  rewrite Hj in Hr2. exists r1, r2. split_and!; try done.
  - unfold w2. now rewrite run_calls_quiet.
  - now rewrite Ht1, Ht2.
Qed.

Lemma updated_at_is_server_time_witness :
  ∃ r1 r2,
    find_row "job1" (db (update_status (env_at 1000) (call_job1 None) fresh_process).1)
    = Some r1
    ∧ find_row "job1"
        (db (run_calls [ (env_at 1000, call_job1 None);
                         (env_connection_lost, call_job1 None);
                         (env_at 3000, call_job1 None) ] fresh_process))
      = Some r2
    ∧ updated_at r1 = 1000 ∧ updated_at r2 = 3000
    ∧ updated_at r1 < updated_at r2.
Proof.
  destruct (updated_at_is_server_time (env_at 1000) (call_job1 None)
              [ (env_connection_lost, call_job1 None) ]
              (env_at 3000) (call_job1 None) fresh_process
              eq_refl
              ltac:(vm_compute; reflexivity)
              ltac:(vm_compute; auto)
              ltac:(vm_compute; reflexivity))
    as (r1 & r2 & H1 & H2 & _ & H3 & H4 & Hiff).
  exists r1, r2.
  split_and!; [exact H1 | exact H3 | exact H2 | exact H4 | now apply Hiff].
Defined.

(** ** C9: [series_id] is never rewritten *)

Lemma update_status_series_id env a w j r :
  find_row j (db w) = Some r →
  ∃ r', find_row j (db (update_status env a w).1) = Some r'
        ∧ series_id r' = series_id r.
Proof.
  intros Hr.
  destruct (decide (arg_job_id a = j)) as [<-|Hne];
    [destruct (write_succeeds env a w) eqn:Hok|].
  - eexists. split; [exact (update_status_existing env a w r Hr Hok)|]. reflexivity.
  - exists r. split; [|reflexivity].
    rewrite update_status_other by now right. exact Hr.
  - exists r. split; [|reflexivity].
    rewrite update_status_other by now left. exact Hr.
Qed.

Lemma run_calls_series_id cs w j r :
  find_row j (db w) = Some r →
  ∃ r', find_row j (db (run_calls cs w)) = Some r'
        ∧ series_id r' = series_id r.
Proof.
  revert w r. induction cs as [|[env a] cs IH]; intros w r Hr; simpl; [eauto|].
  destruct (update_status_series_id env a w j r Hr) as (r1 & Hr1 & Hs1).
  destruct (IH _ _ Hr1) as (r' & Hr' & Hs'). exists r'. split; congruence.
Qed.

(** C9: once a job_id has a record, no call changes its series_id: a
    committed call that supplies another series_id updates the record
    and leaves the stored series_id, and after any sequence of calls
    the record holds the series_id it was created with; the status,
    stage, error_message, metadata and updated_at columns can all
    change in one call. *)
Theorem series_id_is_frozen cs w j r :
  find_row j (db w) = Some r →
  (∃ r', find_row j (db (run_calls cs w)) = Some r'
         ∧ series_id r' = series_id r)
  ∧ (∀ env a,
       arg_job_id a = j → write_succeeds env a w = true →
       ∃ r', find_row j (db (update_status env a w).1) = Some r'
             ∧ series_id r' = series_id r
             ∧ status r' = arg_status a
             ∧ (arg_series_id a ≠ series_id r → series_id r' ≠ arg_series_id a))
  ∧ (∃ env a w0 r0 r0',
       find_row (arg_job_id a) (db w0) = Some r0
       ∧ find_row (arg_job_id a) (db (update_status env a w0).1) = Some r0'
       ∧ arg_series_id a ≠ series_id r0
       ∧ series_id r0' = series_id r0
       ∧ status r0' ≠ status r0 ∧ stage r0' ≠ stage r0
       ∧ error_message r0' ≠ error_message r0
       ∧ metadata r0' ≠ metadata r0
       ∧ updated_at r0' ≠ updated_at r0).
Proof.
  intros Hr. split_and!.
  - now apply run_calls_series_id.
  - intros env a <- Hok. eexists.
    split; [exact (update_status_existing env a w r Hr Hok)|].
    simpl. split_and!; try reflexivity. intros Hne Heq. now apply Hne.
  - exists (env_at 2000), (call_job1 (Some {[ "rows" := PyInt 100 ]})),
      (process_with_job1 None), (row_job1 None). eexists.
    split; [reflexivity|].
    split; [exact (update_status_existing (env_at 2000)
                     (call_job1 (Some {[ "rows" := PyInt 100 ]}))
                     (process_with_job1 None) (row_job1 None)
                     ltac:(vm_compute; reflexivity)
                     ltac:(vm_compute; reflexivity))|].
    vm_compute. split_and!; try reflexivity; discriminate.
Qed.

Lemma series_id_is_frozen_witness :
  ∃ r', find_row "job1"
          (db (run_calls [ (env_at 2000, call_job1 None);
                           (env_at 3000, call_job1 (Some ∅)) ]
                 (process_with_job1 None))) = Some r'
        ∧ series_id r' = "AAPL".
Proof.
  destruct (series_id_is_frozen
              [ (env_at 2000, call_job1 None); (env_at 3000, call_job1 (Some ∅)) ]
              (process_with_job1 None) "job1" (row_job1 None) eq_refl)
    as ((r' & Hr' & Hs) & _).
  exists r'. split; [exact Hr' | exact Hs].
Defined.

(** ** C10: the empty mapping is no metadata *)

Lemma metadata_param_empty : metadata_param (Some ∅) = Ok None.
Proof. reflexivity. Qed.

(** C10: a call with the empty mapping for metadata does in every
    respect what the same call without metadata does: the statement's
    parameter is NULL, so a first write that commits stores NULL in the
    metadata column, not the empty JSON object, and a call on a job_id
    that has a record leaves the stored metadata as it is. *)
Theorem empty_metadata_is_no_metadata env a w :
  update_status env (with_metadata (Some ∅) a) w
  = update_status env (with_metadata None a) w
  ∧ metadata_param (arg_metadata (with_metadata (Some ∅) a)) = Ok None
  ∧ (find_row (arg_job_id a) (db w) = None →
     write_succeeds env (with_metadata (Some ∅) a) w = true →
     ∃ r', rows_of (arg_job_id a)
             (db (update_status env (with_metadata (Some ∅) a) w).1) = [r']
           ∧ metadata r' = None)
  ∧ (∀ r, find_row (arg_job_id a) (db w) = Some r →
          ∃ r', find_row (arg_job_id a)
                  (db (update_status env (with_metadata (Some ∅) a) w).1) = Some r'
                ∧ metadata r' = metadata r).
Proof.
  split_and!.
  - unfold update_status, update_status_body. simpl. reflexivity.
  - reflexivity.
  - intros Hr Hok.
    destruct (update_status_new env (with_metadata (Some ∅) a) w Hr Hok) as [_ Hrows].
    eexists. split; [exact Hrows|]. reflexivity.
  - intros r Hr.
    destruct (write_succeeds env (with_metadata (Some ∅) a) w) eqn:Hok.
    + eexists.
      split; [exact (update_status_existing env (with_metadata (Some ∅) a) w r Hr Hok)|].
      rewrite metadata_do_update. unfold supplied_nonempty. simpl.
      now destruct (metadata r).
    + exists r. split; [|reflexivity].
      rewrite (update_status_other env (with_metadata (Some ∅) a) w) by now right.
      exact Hr.
Qed.

Lemma empty_metadata_is_no_metadata_witness :
  (∃ r', rows_of "job1" (db (update_status (env_at 2000) (call_job1 (Some ∅))
                               fresh_process).1) = [r']
         ∧ metadata r' = None)
  ∧ (∃ r', find_row "job1"
             (db (update_status (env_at 2000) (call_job1 (Some ∅))
                    (process_with_job1 (Some {[ "a" := JNum 1 ]}))).1) = Some r'
           ∧ metadata r' = Some {[ "a" := JNum 1 ]}).
Proof.
  split.
  - destruct (empty_metadata_is_no_metadata (env_at 2000) (call_job1 None) fresh_process)
      as (_ & _ & Hnew & _).
    apply Hnew; vm_compute; reflexivity.
  - destruct (empty_metadata_is_no_metadata (env_at 2000) (call_job1 None)
                (process_with_job1 (Some {[ "a" := JNum 1 ]})))
      as (_ & _ & _ & Hold).
    apply (Hold (row_job1 (Some {[ "a" := JNum 1 ]}))). vm_compute. reflexivity.
Defined.

(** ** The scenarios of the specification *)

Example scenario_running_then_completed :
  db (run_calls
        [ (env_at 1000, mkArgs "job1" "AAPL" "running" "ingestion" None None);
          (env_at 2000, mkArgs "job1" "AAPL" "completed" "forecasting" None
                          (Some {[ "rows" := PyInt 100 ]})) ]
        fresh_process)
  = [ mkRow "job1" "AAPL" "completed" "forecasting" None
        (Some {[ "rows" := JNum 100 ]}) 2000 ].
Proof. vm_compute. reflexivity. Qed.

Example scenario_metadata_overwrite :
  metadata <$> db (run_calls
        [ (env_at 1000, call_job1 (Some {[ "a" := PyInt 1 ]}));
          (env_at 2000, call_job1 (Some {[ "a" := PyInt 2 ]})) ]
        fresh_process)
  = [ Some {[ "a" := JNum 2 ]} ].
Proof. vm_compute. reflexivity. Qed.

Example scenario_metadata_omitted :
  metadata <$> db (run_calls
        [ (env_at 1000, call_job1 (Some {[ "a" := PyInt 1 ]}));
          (env_at 2000, call_job1 None) ]
        fresh_process)
  = [ Some {[ "a" := JNum 1 ]} ].
Proof. vm_compute. reflexivity. Qed.

Example scenario_unserialisable_metadata :
  let result := update_status (env_at 1000)
                  (call_job1 (Some {[ "when" := PySet [] ]})) fresh_process in
  result.2 = Ok tt ∧ db result.1 = []
  ∧ last (call_events (env_at 1000)
            (call_job1 (Some {[ "when" := PySet [] ]})) fresh_process)
    = Some (EvPutConn 1).
Proof. vm_compute. split_and!; reflexivity. Qed.


(** * Further properties of the code *)

(** ** The events of a call *)

Lemma write_run env a c w :
  (write env a c w).2 = write_result env a
  ∧ trace (write env a c w).1 = trace w ++ write_trace env a c.
Proof.
  unfold write, cursor, execute, commit, cursor_close, write_result, write_trace.
  unfold_M.
  destruct (fails env OpCursor); simpl; [now rewrite app_nil_r|].
  destruct (metadata_param (arg_metadata a)) as [m|e]; simpl; [|done].
  destruct (fails env OpExecute); simpl; [done|].
  destruct (fails env OpCommit); simpl; [now rewrite <- app_assoc|].
  destruct (fails env OpCursorClose); simpl; now rewrite <- !app_assoc.
Qed.

(** A call that gets no connection: the world [get_pool] left, one
    failure line more, and a normal return. *)
Lemma update_status_no_connection env a w w1 e :
  get_pool env w = (w1, Raise e)
  ∨ (∃ p, get_pool env w = (w1, Ok p) ∧ (getconn env p w1).2 = Raise e) →
  update_status env a w = (emit (EvLog (UpdateFailed e)) w1, Ok tt).
Proof.
  rewrite update_status_eq. intros [Hg|(p & Hg & Hc)]; rewrite Hg; [done|].
  destruct (getconn env p w1) as [w2 [c|e']] eqn:Hgc; simpl in Hc; [done|].
  injection Hc as ->. apply getconn_inv in Hgc as ->. done.
Qed.

(** A call that gets the connection [c]: its events after those of
    [get_pool]. *)
Lemma update_status_with_connection env a w w1 p w2 c :
  get_pool env w = (w1, Ok p) →
  getconn env p w1 = (w2, Ok c) →
  trace (update_status env a w).1
  = trace w1 ++ EvGetConn c :: write_trace env a c
      ++ handler_trace env c (write_result env a) ++ [EvPutConn c].
Proof.
  intros Hg Hgc. rewrite update_status_eq, Hg, Hgc.
  apply getconn_inv in Hgc as (Hc & Hlt & Hf & Hw2).
  assert (Hin : c ∈ used_of p w2) by (subst w2; rewrite used_of_insert; set_solver).
  assert (Htxn : txn w2 = None) by (subst w2; reflexivity).
  assert (Htr2 : trace w2 = trace w1 ++ [EvGetConn c]) by (subst w2; reflexivity).
  destruct (write_run env a c w2) as [Hres Htr].
  destruct (write env a c w2) as [w3 r] eqn:Hw. simpl in Hres, Htr.
  apply (write_inv _ _ _ _ _ _ Htxn) in Hw as (_ & _ & Hu3 & _).
  assert (Hin3 : c ∈ used_of p w3) by (unfold used_of in *; now rewrite Hu3).
  rewrite <- Hres. destruct r as [[]|e]; simpl.
  - rewrite (putconn_checked_out _ _ _ Hin3). simpl.
    rewrite Htr, Htr2, <- !app_assoc. reflexivity.
  - rewrite on_error_inv. destruct (fails env OpRollback);
      rewrite putconn_checked_out by exact Hin3; simpl;
      rewrite Htr, Htr2, <- !app_assoc; reflexivity.
Qed.

(** ** Calls that get no connection *)

Lemma get_pool_raises env w w1 e :
  get_pool env w = (w1, Raise e) →
  w1 = w ∧ cls_pool w = None
  ∧ match py_int env (getenv env "DATABASE_PORT" "5432") with
    | None => e = ValueError
    | Some _ => e = DatabaseError OpNewPool ∧ fails env OpNewPool = true
    end.
Proof.
  unfold get_pool, ThreadedConnectionPool, int. unfold_M.
  destruct (cls_pool w) as [p|] eqn:Hp; simpl; [discriminate|].
  destruct (py_int _ _) as [n|]; simpl; [|now intros [= <- <-]].
  destruct (fails env OpNewPool); simpl; [now intros [= <- <-] | discriminate].
Qed.

Lemma get_pool_fails env w :
  cls_pool w = None →
  py_int env (getenv env "DATABASE_PORT" "5432") = None ∨ fails env OpNewPool = true →
  ∃ e, get_pool env w = (w, Raise e).
Proof.
  intros Hn Hbad. unfold get_pool, ThreadedConnectionPool, int. unfold_M.
  rewrite Hn. simpl. destruct (py_int _ _) as [n|]; simpl; [|eauto].
  destruct Hbad as [Hbad|Hbad]; [discriminate|]. rewrite Hbad. simpl. eauto.
Qed.

Lemma get_pool_builds env w n :
  cls_pool w = None →
  py_int env (getenv env "DATABASE_PORT" "5432") = Some n →
  fails env OpNewPool = false →
  (get_pool env w).2 = Ok (new_pool env n w)
  ∧ cls_pool (get_pool env w).1 = Some (new_pool env n w).
Proof.
  intros Hn Hport Hf. unfold get_pool, ThreadedConnectionPool, int. unfold_M.
  rewrite Hn. simpl. rewrite Hport. simpl. rewrite Hf. simpl. done.
Qed.

(** X1: when the class has no pool and one cannot be built, because
    [int] raises on the text of DATABASE_PORT or because the
    constructor raises, the call leaves the world as it was but for one
    failure line, and returns normally; the failure reported is the
    [ValueError] as soon as [int] raises.  The failure is not kept: the
    class still has no pool, and the next call whose environment allows
    it builds one from that environment. *)
Theorem failed_pool_construction_is_not_kept env a w :
  cls_pool w = None →
  py_int env (getenv env "DATABASE_PORT" "5432") = None ∨ fails env OpNewPool = true →
  ∃ e, update_status env a w = (emit (EvLog (UpdateFailed e)) w, Ok tt)
       ∧ (py_int env (getenv env "DATABASE_PORT" "5432") = None → e = ValueError)
       ∧ (is_Some (py_int env (getenv env "DATABASE_PORT" "5432")) →
          e = DatabaseError OpNewPool)
       ∧ (∀ env' a' n,
            py_int env' (getenv env' "DATABASE_PORT" "5432") = Some n →
            fails env' OpNewPool = false →
            cls_pool (update_status env' a' (update_status env a w).1).1
            = Some (new_pool env' n w)).
Proof.
  intros Hn Hbad. destruct (get_pool_fails env w Hn Hbad) as (e & Hg).
  exists e. pose proof (get_pool_raises _ _ _ _ Hg) as (_ & _ & He).
  assert (Hcall : update_status env a w = (emit (EvLog (UpdateFailed e)) w, Ok tt))
    by (apply update_status_no_connection; now left).
  split_and!.
  - exact Hcall.
  - intros Hp. now rewrite Hp in He.
  - intros [n Hp]. rewrite Hp in He. tauto.
  - intros env' a' n Hport Hf. rewrite Hcall. simpl.
    destruct (update_status_pool env' a' (emit (EvLog (UpdateFailed e)) w)) as [-> _].
    now destruct (get_pool_builds env' (emit (EvLog (UpdateFailed e)) w) n Hn Hport Hf)
      as [_ ->].
Qed.

Lemma failed_pool_construction_is_not_kept_witness :
  update_status env_bad_port (call_job1 None) fresh_process
  = (emit (EvLog (UpdateFailed ValueError)) fresh_process, Ok tt)
  ∧ (∃ p, cls_pool (run_calls [ (env_bad_port, call_job1 None);
                                (env_elsewhere, call_job1 None) ] fresh_process)
          = Some p ∧ host p = "elsewhere").
Proof.
  destruct (failed_pool_construction_is_not_kept env_bad_port (call_job1 None)
              fresh_process eq_refl ltac:(left; vm_compute; reflexivity))
    as (e & Hcall & Hval & _ & Hnext).
  rewrite (Hval ltac:(vm_compute; reflexivity)) in Hcall. split; [exact Hcall|].
  eexists. split.
  - exact (Hnext env_elsewhere (call_job1 None) 5432
             ltac:(vm_compute; reflexivity) eq_refl).
  - reflexivity.
Defined.

Lemma getconn_raises env p w :
  (maxconn p <= length (used_of p w))%nat ∨ fails env OpGetConn = true →
  getconn env p w
  = (w, Raise (if (maxconn p <=? length (used_of p w))%nat
               then PoolError else DatabaseError OpGetConn)).
Proof.
  intros H. unfold getconn. unfold_M.
  destruct (maxconn p <=? length (used_of p w))%nat eqn:Hfull; simpl; [done|].
  apply Nat.leb_gt in Hfull. destruct H as [H|H]; [lia|]. now rewrite H.
Qed.

(** X2: when the pool of the class has no connection to give, its
    [maxconn] connections being out or a new one failing to open, the
    call never assigns [conn]: it does not roll back, does not call
    [putconn], leaves the table and the pool as they were, logs one
    failure line and returns normally.  The failure is [PoolError]
    when the pool is exhausted. *)
Theorem no_connection_no_cleanup env a w p :
  cls_pool w = Some p →
  (maxconn p <= length (used_of p w))%nat ∨ fails env OpGetConn = true →
  ∃ e, update_status env a w = (emit (EvLog (UpdateFailed e)) w, Ok tt)
       ∧ ((maxconn p <= length (used_of p w))%nat → e = PoolError)
       ∧ ((length (used_of p w) < maxconn p)%nat → e = DatabaseError OpGetConn).
Proof.
  intros Hp Hno. eexists. split_and!.
  - apply update_status_no_connection. right. exists p.
    split; [now apply get_pool_cached|]. now rewrite getconn_raises.
  - intros Hfull. apply Nat.leb_le in Hfull. now rewrite Hfull.
  - intros Hfree. apply Nat.leb_gt in Hfree. now rewrite Hfree.
Qed.

Lemma no_connection_no_cleanup_witness :
  update_status (env_at 2000) (call_job1 None) exhausted_process
  = (emit (EvLog (UpdateFailed PoolError)) exhausted_process, Ok tt).
Proof.
  destruct (no_connection_no_cleanup (env_at 2000) (call_job1 None)
              exhausted_process exhausted_pool eq_refl
              ltac:(left; vm_compute; lia))
    as (e & Hcall & Hfull & _).
  rewrite (Hfull ltac:(vm_compute; lia)) in Hcall. exact Hcall.
Defined.

(** ** What a call reports of its outcome *)

Lemma outcome_lines_app (l1 l2 : list Event) :
  outcome_lines (l1 ++ l2) = outcome_lines l1 ++ outcome_lines l2.
Proof. apply omap_app. Qed.

Lemma outcome_lines_setup (l : list Event) :
  Forall (λ e, is_setup_event e = true) l → outcome_lines l = [].
Proof.
  induction 1 as [|ev l Hev _ IH]; [done|].
  destruct ev as [| | | | | | | |[]]; try discriminate Hev; exact IH.
Qed.

Lemma outcome_lines_write env a c :
  outcome_lines (write_trace env a c ++ handler_trace env c (write_result env a))
  = [ match write_result env a with
      | Ok _ => JobUpdated (arg_job_id a) (arg_status a) (arg_stage a)
      | Raise e => UpdateFailed e
      end ].
Proof.
  unfold write_trace, write_result, handler_trace.
  destruct (fails env OpCursor); simpl.
  { now destruct (fails env OpRollback). }
  destruct (metadata_param (arg_metadata a)) as [m|e]; simpl.
  2:{ now destruct (fails env OpRollback). }
  destruct (fails env OpExecute); simpl.
  { now destruct (fails env OpRollback). }
  destruct (fails env OpCommit); simpl.
  { now destruct (fails env OpRollback). }
  destruct (fails env OpCursorClose); simpl; [|reflexivity].
  now destruct (fails env OpRollback).
Qed.

Lemma outcome_lines_connection env a c :
  outcome_lines (EvGetConn c :: write_trace env a c
                   ++ handler_trace env c (write_result env a) ++ [EvPutConn c])
  = [ match write_result env a with
      | Ok _ => JobUpdated (arg_job_id a) (arg_status a) (arg_stage a)
      | Raise e => UpdateFailed e
      end ].
Proof.
  change (outcome_lines (write_trace env a c
            ++ handler_trace env c (write_result env a) ++ [EvPutConn c])
          = [ match write_result env a with
              | Ok _ => JobUpdated (arg_job_id a) (arg_status a) (arg_stage a)
              | Raise e => UpdateFailed e
              end ]).
  rewrite app_assoc, outcome_lines_app, outcome_lines_write. reflexivity.
Qed.

Lemma write_result_ok env a :
  write_result env a = Ok tt
  ↔ write_commits env a && negb (fails env OpCursorClose) = true.
Proof.
  unfold write_result, write_commits.
  destruct (fails env OpCursor); simpl; [done|].
  destruct (metadata_param (arg_metadata a)) as [m|e]; simpl; [|done].
  destruct (fails env OpExecute); simpl; [done|].
  destruct (fails env OpCommit); simpl; [done|].
  now destruct (fails env OpCursorClose).
Qed.

Lemma call_events_no_connection env a w w1 e :
  get_pool env w = (w1, Raise e)
  ∨ (∃ p, get_pool env w = (w1, Ok p) ∧ (getconn env p w1).2 = Raise e) →
  ∃ pre, Forall (λ ev, is_setup_event ev = true) pre
         ∧ call_events env a w = pre ++ [EvLog (UpdateFailed e)].
Proof.
  intros H. pose proof (update_status_no_connection env a w w1 e H) as Hcall.
  assert (∃ r, get_pool env w = (w1, r)) as (r & Hg)
    by (destruct H as [H|(p & H & _)]; eauto).
  destruct (get_pool_trace _ _ _ _ Hg) as (pre & Hpre & Hsetup).
  exists pre. split; [done|]. apply call_events_eq.
  rewrite Hcall. simpl. now rewrite Hpre, <- app_assoc.
Qed.

Lemma call_events_with_connection env a w w1 p w2 c :
  get_pool env w = (w1, Ok p) →
  getconn env p w1 = (w2, Ok c) →
  ∃ pre, Forall (λ ev, is_setup_event ev = true) pre
         ∧ call_events env a w
           = pre ++ EvGetConn c :: write_trace env a c
               ++ handler_trace env c (write_result env a) ++ [EvPutConn c].
Proof.
  intros Hg Hgc. destruct (get_pool_trace _ _ _ _ Hg) as (pre & Hpre & Hsetup).
  exists pre. split; [done|]. apply call_events_eq.
  rewrite (update_status_with_connection env a w w1 p w2 c Hg Hgc).
  now rewrite Hpre, <- app_assoc.
Qed.

Lemma write_succeeds_with_connection env a w w1 p w2 c :
  get_pool env w = (w1, Ok p) →
  getconn env p w1 = (w2, Ok c) →
  write_succeeds env a w = write_commits env a.
Proof.
  intros Hg Hgc. unfold write_succeeds. rewrite Hg.
  rewrite <- (getconn_ok_iff env p w1), Hgc. reflexivity.
Qed.

Lemma write_succeeds_no_connection env a w w1 e :
  get_pool env w = (w1, Raise e)
  ∨ (∃ p, get_pool env w = (w1, Ok p) ∧ (getconn env p w1).2 = Raise e) →
  write_succeeds env a w = false.
Proof.
  unfold write_succeeds. intros [Hg|(p & Hg & Hc)]; rewrite Hg; [done|].
  rewrite <- (getconn_ok_iff env p w1), Hc. reflexivity.
Qed.

(** X7: every call logs exactly one line about its outcome: the success
    line of line 91, with the job_id, status and stage of the call, when
    [conn.commit()] and [cursor.close()] both returned, and one failure
    line of line 94 otherwise.  So a success line means that the write
    is committed and that the call returns normally. *)
Theorem one_outcome_line env a w :
  ∃ l, outcome_lines (call_events env a w) = [l]
       ∧ (l = JobUpdated (arg_job_id a) (arg_status a) (arg_stage a)
          ↔ write_succeeds env a w && negb (fails env OpCursorClose) = true)
       ∧ ((∃ e, l = UpdateFailed e)
          ↔ write_succeeds env a w && negb (fails env OpCursorClose) = false)
       ∧ (l = JobUpdated (arg_job_id a) (arg_status a) (arg_stage a) →
          (update_status env a w).2 = Ok tt
          ∧ db (update_status env a w).1
            = insert_on_conflict (NOW env) (excluded_row env a (stored_param a))
                (db w)).
Proof.
  assert (Hdone : write_succeeds env a w && negb (fails env OpCursorClose) = true →
                  (update_status env a w).2 = Ok tt
                  ∧ db (update_status env a w).1
                    = insert_on_conflict (NOW env)
                        (excluded_row env a (stored_param a)) (db w)).
  { intros Hok. split.
    - destruct (update_status_outcome env a w) as [H|[H Hf]]; [done|].
      apply update_status_raises_iff in H as (_ & H & _). congruence.
    - apply andb_true_iff in Hok as [Hok _]. now rewrite update_status_db, Hok. }
  destruct (get_pool env w) as [w1 [p|e]] eqn:Hg.
  2:{ destruct (call_events_no_connection env a w w1 e) as (pre & Hs & ->);
        [now left|].
      rewrite (write_succeeds_no_connection env a w w1 e) in * by now left.
      exists (UpdateFailed e).
      rewrite outcome_lines_app, outcome_lines_setup by done.
      split_and!; [done | done | naive_solver | done]. }
  destruct (getconn env p w1) as [w2 [c|e]] eqn:Hgc.
  2:{ assert (Hno : get_pool env w = (w1, Raise e)
                    ∨ (∃ p, get_pool env w = (w1, Ok p)
                            ∧ (getconn env p w1).2 = Raise e)).
      { right. exists p. now rewrite Hgc. }
      destruct (call_events_no_connection env a w w1 e Hno) as (pre & Hs & ->).
      rewrite (write_succeeds_no_connection env a w w1 e Hno) in *.
      exists (UpdateFailed e).
      rewrite outcome_lines_app, outcome_lines_setup by done.
      split_and!; [done | done | naive_solver | done]. }
  destruct (call_events_with_connection env a w w1 p w2 c Hg Hgc) as (pre & Hs & ->).
  rewrite (write_succeeds_with_connection env a w w1 p w2 c Hg Hgc) in *.
  eexists. split.
  { rewrite outcome_lines_app, outcome_lines_setup, outcome_lines_connection by done.
    reflexivity. }
  pose proof (write_result_ok env a) as Hres.
  destruct (write_result env a) as [[]|e].
  - assert (Hok : write_commits env a && negb (fails env OpCursorClose) = true)
      by now apply Hres.
    rewrite Hok. split_and!; [done | | intros _; now apply Hdone].
    split; [intros [e [=]] | done].
  - assert (Hko : write_commits env a && negb (fails env OpCursorClose) = false).
    { apply not_true_is_false. intros Hok. apply Hres in Hok. discriminate. }
    rewrite Hko. split_and!; [done | naive_solver | done].
Qed.

Lemma one_outcome_line_witness :
  outcome_lines (call_events (env_at 2000) (call_job1 None) fresh_process)
  = [ JobUpdated "job1" "completed" "forecasting" ].
Proof.
  destruct (one_outcome_line (env_at 2000) (call_job1 None) fresh_process)
    as (l & Hl & Hiff & _).
  rewrite Hl. f_equal. apply Hiff. vm_compute. reflexivity.
Defined.

(** X8: when [cursor.close()] raises after [conn.commit()] returned,
    the record is written, yet the call reports a failure: its one
    outcome line is the failure line for the exception of
    [cursor.close()], and the [conn.rollback()] of the handler, which
    is called, undoes nothing. *)
Theorem close_failure_reported_after_commit env a w :
  write_succeeds env a w = true →
  fails env OpCursorClose = true →
  db (update_status env a w).1
  = insert_on_conflict (NOW env) (excluded_row env a (stored_param a)) (db w)
  ∧ outcome_lines (call_events env a w)
    = [ UpdateFailed (DatabaseError OpCursorClose) ]
  ∧ (fails env OpRollback = false →
     (update_status env a w).2 = Ok tt
     ∧ ∃ c, EvCommit c ∈ call_events env a w
            ∧ EvRollback c ∈ call_events env a w).
Proof.
  intros Hok Hclose. split; [now rewrite update_status_db, Hok|].
  destruct (get_pool env w) as [w1 [p|e]] eqn:Hg.
  2:{ rewrite (write_succeeds_no_connection env a w w1 e) in Hok by now left.
      discriminate. }
  destruct (getconn env p w1) as [w2 [c|e]] eqn:Hgc.
  2:{ rewrite (write_succeeds_no_connection env a w w1 e) in Hok; [discriminate|].
      right. exists p. now rewrite Hgc. }
  destruct (call_events_with_connection env a w w1 p w2 c Hg Hgc) as (pre & Hs & ->).
  rewrite (write_succeeds_with_connection env a w w1 p w2 c Hg Hgc) in Hok.
  assert (Hres : write_result env a = Raise (DatabaseError OpCursorClose)
                 ∧ EvCommit c ∈ write_trace env a c).
  { revert Hok. unfold write_commits, write_result, write_trace.
    destruct (fails env OpCursor); simpl; [done|].
    destruct (metadata_param (arg_metadata a)) as [m|e]; simpl; [|done].
    destruct (fails env OpExecute); simpl; [done|].
    destruct (fails env OpCommit); simpl; [done|].
    rewrite Hclose. intros _. split; [done | set_solver]. }
  destruct Hres as [Hres Hcommit]. split.
  - rewrite outcome_lines_app, outcome_lines_setup, outcome_lines_connection by done.
    now rewrite Hres.
  - intros Hrb. split; [now apply update_status_swallows|].
    exists c. rewrite Hres. simpl. rewrite Hrb. set_solver.
Qed.

Lemma close_failure_reported_after_commit_witness :
  job_ids (db (update_status env_close_fails (call_job1 None) fresh_process).1)
  = [ "job1" ]
  ∧ outcome_lines (call_events env_close_fails (call_job1 None) fresh_process)
    = [ UpdateFailed (DatabaseError OpCursorClose) ]
  ∧ (update_status env_close_fails (call_job1 None) fresh_process).2 = Ok tt.
Proof.
  destruct (close_failure_reported_after_commit env_close_fails (call_job1 None)
              fresh_process ltac:(vm_compute; reflexivity) eq_refl)
    as (Hdb & Hlines & Hret).
  split_and!.
  - rewrite Hdb. vm_compute. reflexivity.
  - exact Hlines.
  - exact (proj1 (Hret eq_refl)).
Defined.

(** X10: when the metadata is a non-empty mapping with a value that
    [json.dumps] cannot encode, the [TypeError] is raised while the
    parameters are built, after [conn.cursor()] and before
    [cursor.execute]: no statement reaches the server, the table is as
    it was, and a call that got its connection and its cursor reports
    the [TypeError] and still returns the connection. *)
Theorem unserialisable_metadata_is_not_sent env a w d :
  arg_metadata a = Some d →
  truthy (Some d) = true →
  json_dumps d = None →
  db (update_status env a w).1 = db w
  ∧ (∀ c, EvExecute c ∉ call_events env a w)
  ∧ (∀ c, EvGetConn c ∈ call_events env a w → fails env OpCursor = false →
          outcome_lines (call_events env a w) = [ UpdateFailed TypeError ]
          ∧ EvCursor c ∈ call_events env a w
          ∧ last (call_events env a w) = Some (EvPutConn c)).
Proof.
  intros Hd Ht Hj.
  assert (Hparam : metadata_param (arg_metadata a) = Raise TypeError).
  { rewrite Hd. unfold metadata_param. now rewrite Ht, Hj. }
  assert (Hsetup : ∀ pre c, Forall (λ ev, is_setup_event ev = true) pre →
                            (EvExecute c ∉ pre) ∧ (EvGetConn c ∉ pre)).
  { intros pre c Hpre. rewrite Forall_forall in Hpre.
    split; intros Hin; specialize (Hpre _ Hin); discriminate. }
  assert (Hnot : write_succeeds env a w = false).
  { unfold write_succeeds, write_commits. rewrite Hparam.
    destruct (get_pool env w) as [w1 [p|e]]; [|done].
    now rewrite andb_false_r, !andb_false_l, ?andb_false_r. }
  split; [now rewrite update_status_db, Hnot|].
  assert (Hnone : ∀ w1 e,
            get_pool env w = (w1, Raise e)
            ∨ (∃ p, get_pool env w = (w1, Ok p) ∧ (getconn env p w1).2 = Raise e) →
            ∀ c, (EvExecute c ∉ call_events env a w)
                 ∧ (EvGetConn c ∉ call_events env a w)).
  { intros w1 e Hno c.
    destruct (call_events_no_connection env a w w1 e Hno) as (pre & Hs & ->).
    destruct (Hsetup pre c Hs) as [Hex Hgc].
    split; intros Hin; apply elem_of_app in Hin as [Hin|Hin]; try done;
      apply list_elem_of_singleton in Hin; discriminate. }
  destruct (get_pool env w) as [w1 [p|e]] eqn:Hg.
  2:{ split; intros c; [|intros Hin]; now destruct (Hnone w1 e (or_introl eq_refl) c). }
  destruct (getconn env p w1) as [w2 [c|e]] eqn:Hgc.
  2:{ assert (Hno : (get_pool env w = (w1, Raise e) : Prop)
                    ∨ (∃ p0, get_pool env w = (w1, Ok p0)
                             ∧ (getconn env p0 w1).2 = Raise e)).
      { right. exists p. rewrite Hg, Hgc. done. }
      rewrite <- Hg in Hnone.
      split; intros c; [|intros Hin]; now destruct (Hnone w1 e Hno c). }
  clear Hnone.
  destruct (call_events_with_connection env a w w1 p w2 c Hg Hgc) as (pre & Hs & ->).
  assert (Htrace : write_trace env a c = if fails env OpCursor then [] else [EvCursor c])
    by (unfold write_trace; now rewrite Hparam).
  assert (Hres : write_result env a
                 = if fails env OpCursor then Raise (DatabaseError OpCursor)
                   else Raise TypeError)
    by (unfold write_result; now rewrite Hparam).
  rewrite Htrace, Hres. unfold handler_trace. split.
  - intros c' Hin. destruct (Hsetup pre c' Hs) as [Hex _].
    apply elem_of_app in Hin as [Hin|Hin]; [done|].
    destruct (fails env OpCursor), (fails env OpRollback); simpl in Hin;
      repeat (apply elem_of_cons in Hin as [Hin|Hin]; [discriminate Hin|]);
      now apply not_elem_of_nil in Hin.
  - intros c' Hin Hcur. destruct (Hsetup pre c' Hs) as [_ Hgc'].
    rewrite Hcur in *. simpl in *.
    apply elem_of_app in Hin as [Hin|Hin]; [done|].
    assert (c' = c) as ->.
    { apply elem_of_cons in Hin as [Hin|Hin]; [now injection Hin|].
      destruct (fails env OpRollback); simpl in Hin;
        repeat (apply elem_of_cons in Hin as [Hin|Hin]; [discriminate Hin|]);
        now apply not_elem_of_nil in Hin. }
    split_and!.
    + rewrite outcome_lines_app, outcome_lines_setup by done.
      now destruct (fails env OpRollback).
    + apply elem_of_app. right. apply elem_of_cons. right. apply elem_of_cons. now left.
    + destruct (fails env OpRollback).
      * change (last (pre ++ [EvGetConn c; EvCursor c; EvLog (UpdateFailed TypeError)]
                        ++ [EvPutConn c]) = Some (EvPutConn c)).
        rewrite app_assoc. apply last_snoc.
      * change (last (pre ++ [EvGetConn c; EvCursor c; EvLog (UpdateFailed TypeError);
                               EvRollback c] ++ [EvPutConn c]) = Some (EvPutConn c)).
        rewrite app_assoc. apply last_snoc.
Qed.

Lemma unserialisable_metadata_is_not_sent_witness :
  let a := call_job1 (Some {[ "when" := PySet [] ]}) in
  db (update_status (env_at 2000) a (process_with_job1 None)).1
  = db (process_with_job1 None)
  ∧ outcome_lines (call_events (env_at 2000) a (process_with_job1 None))
    = [ UpdateFailed TypeError ].
Proof.
  intros a.
  destruct (unserialisable_metadata_is_not_sent (env_at 2000) a
              (process_with_job1 None) {[ "when" := PySet [] ]}
              eq_refl ltac:(vm_compute; reflexivity) ltac:(vm_compute; reflexivity))
    as (Hdb & _ & Hconn).
  split; [exact Hdb|].
  apply (Hconn 1%nat); [|reflexivity].
  vm_compute. apply elem_of_cons. right. apply elem_of_cons. right.
  apply elem_of_cons. now left.
Defined.

(** ** The records of other jobs *)

Lemma rows_of_insert_other now ex (t : Table) j :
  job_id ex ≠ j → rows_of j (insert_on_conflict now ex t) = rows_of j t.
Proof.
  intros Hne. unfold insert_on_conflict. destruct (existsb _ t).
  - now rewrite rows_of_update, decide_False.
  - unfold rows_of. rewrite filter_app, (filter_cons _ ex), decide_False by done.
    simpl. now rewrite app_nil_r.
Qed.

(** X5: a call touches no record but that of its own job_id: under
    any other job_id the table holds the same records after the call
    as before, whether the call commits or fails. *)
Theorem other_jobs_are_untouched env a w j :
  j ≠ arg_job_id a →
  rows_of j (db (update_status env a w).1) = rows_of j (db w).
Proof.
  intros Hne. rewrite update_status_db.
  destruct (write_succeeds env a w); [|reflexivity].
  apply rows_of_insert_other. simpl. congruence.
Qed.

Lemma other_jobs_are_untouched_witness :
  rows_of "job2"
    (db (update_status (env_at 2000) (call_job1 (Some {[ "rows" := PyInt 100 ]}))
           (mkWorld None 0 ∅ [row_job2; row_job1 None] None [])).1)
  = [ row_job2 ].
Proof.
  rewrite (other_jobs_are_untouched (env_at 2000)
             (call_job1 (Some {[ "rows" := PyInt 100 ]}))
             (mkWorld None 0 ∅ [row_job2; row_job1 None] None []) "job2"
             ltac:(discriminate)).
  reflexivity.
Defined.

(** ** Metadata over several calls *)

Lemma keyval_supplied_nonempty k a :
  keyval k (supplied_nonempty a) = keyval k (supplied a).
Proof.
  unfold supplied_nonempty. destruct (truthy (arg_metadata a)) eqn:Ht; [done|].
  apply truthy_false in Ht as [Ht|Ht]; unfold supplied; rewrite Ht; simpl; [done|].
  rewrite json_dumps_empty. simpl. now rewrite lookup_empty.
Qed.

Lemma update_status_keeps_keys env a w j r :
  find_row j (db w) = Some r →
  ∃ r', find_row j (db (update_status env a w).1) = Some r'
        ∧ (is_Some (metadata r) → is_Some (metadata r'))
        ∧ (∀ k, is_Some (keyval k (metadata r)) → is_Some (keyval k (metadata r'))).
Proof.
  intros Hr.
  destruct (decide (arg_job_id a = j)) as [<-|Hne];
    [destruct (write_succeeds env a w) eqn:Hok|].
  - eexists. split; [exact (update_status_existing env a w r Hr Hok)|].
    rewrite metadata_do_update. split.
    + intros [o Ho]. rewrite Ho. now destruct (supplied_nonempty a).
    + intros k Hk. rewrite keyval_merged.
      now destruct (keyval k (supplied_nonempty a)).
  - exists r. split; [|done]. rewrite update_status_other by now right. exact Hr.
  - exists r. split; [|done]. rewrite update_status_other by now left. exact Hr.
Qed.

(** X6: no call takes metadata away: once the record of a job_id has a
    key in its metadata, it has that key after any sequence of calls,
    and a metadata column that is not NULL never becomes NULL again. *)
Theorem metadata_keys_are_kept cs w j r :
  find_row j (db w) = Some r →
  ∃ r', find_row j (db (run_calls cs w)) = Some r'
        ∧ (is_Some (metadata r) → is_Some (metadata r'))
        ∧ (∀ k, is_Some (keyval k (metadata r)) → is_Some (keyval k (metadata r'))).
Proof.
  revert w r. induction cs as [|[env a] cs IH]; intros w r Hr; simpl.
  - exists r. done.
  - destruct (update_status_keeps_keys env a w j r Hr) as (r1 & Hr1 & Hnn1 & Hk1).
    destruct (IH _ _ Hr1) as (r' & Hr' & Hnn & Hk).
    exists r'. split_and!; [done | auto | auto].
Qed.

Lemma metadata_keys_are_kept_witness :
  ∃ r', find_row "job1"
          (db (run_calls [ (env_at 2000, call_job1 (Some {[ "b" := PyInt 2 ]}));
                           (env_at 3000, call_job1 (Some ∅));
                           (env_at 4000, call_job1 None) ]
                 (process_with_job1 (Some {[ "a" := JNum 1 ]})))) = Some r'
        ∧ is_Some (keyval "a" (metadata r')).
Proof.
  destruct (metadata_keys_are_kept
              [ (env_at 2000, call_job1 (Some {[ "b" := PyInt 2 ]}));
                (env_at 3000, call_job1 (Some ∅));
                (env_at 4000, call_job1 None) ]
              (process_with_job1 (Some {[ "a" := JNum 1 ]})) "job1"
              (row_job1 (Some {[ "a" := JNum 1 ]}))
              ltac:(vm_compute; reflexivity))
    as (r' & Hr' & _ & Hk).
  exists r'. split; [exact Hr'|]. apply Hk. vm_compute. eauto.
Defined.

(** The record of the call's job_id after a write that commits, whether
    it was there or not. *)
Lemma update_status_keyval env a w :
  write_succeeds env a w = true →
  ∃ r', find_row (arg_job_id a) (db (update_status env a w).1) = Some r'
        ∧ ∀ k, keyval k (metadata r')
               = match keyval k (supplied a) with
                 | Some v => Some v
                 | None => keyval k (find_row (arg_job_id a) (db w) ≫= metadata)
                 end.
Proof.
  intros Hok. destruct (find_row (arg_job_id a) (db w)) as [r|] eqn:Hr.
  - eexists. split; [exact (update_status_existing env a w r Hr Hok)|].
    intros k. now rewrite metadata_do_update, keyval_merged, keyval_supplied_nonempty.
  - destruct (update_status_new env a w Hr Hok) as [_ Hrows].
    eexists. split; [unfold find_row; now rewrite Hrows|].
    intros k. simpl. rewrite keyval_supplied_nonempty.
    now destruct (keyval k (supplied a)).
Qed.

(** X9: after two writes that commit for a job_id, each key of the
    stored metadata holds the value of the latest of the two writes
    that supplied it, and failing both the value it had before, if
    any; this whether the first of the two created the record or
    found it. *)
Theorem metadata_last_writer_wins env1 a1 env2 a2 w :
  arg_job_id a2 = arg_job_id a1 →
  write_succeeds env1 a1 w = true →
  let w1 := (update_status env1 a1 w).1 in
  write_succeeds env2 a2 w1 = true →
  ∃ r2, find_row (arg_job_id a1) (db (update_status env2 a2 w1).1) = Some r2
        ∧ ∀ k, keyval k (metadata r2)
               = match keyval k (supplied a2) with
                 | Some v => Some v
                 | None =>
                     match keyval k (supplied a1) with
                     | Some v => Some v
                     | None => keyval k (find_row (arg_job_id a1) (db w) ≫= metadata)
                     end
                 end.
Proof.
  intros Hj Hok1 w1 Hok2.
  destruct (update_status_keyval env1 a1 w Hok1) as (r1 & Hr1 & Hk1).
  destruct (update_status_keyval env2 a2 w1 Hok2) as (r2 & Hr2 & Hk2).
  rewrite Hj in Hr2, Hk2. exists r2. split; [exact Hr2|].
  intros k. rewrite Hk2. fold w1 in Hr1. rewrite Hr1. simpl.
  now rewrite <- Hk1.
Qed.

Lemma metadata_last_writer_wins_witness :
  ∃ r2, find_row "job1"
          (db (run_calls
                 [ (env_at 1000, call_job1 (Some {[ "a" := PyInt 1; "b" := PyInt 1 ]}));
                   (env_at 2000, call_job1 (Some {[ "b" := PyInt 2 ]})) ]
                 fresh_process)) = Some r2
        ∧ keyval "a" (metadata r2) = Some (JNum 1)
        ∧ keyval "b" (metadata r2) = Some (JNum 2).
Proof.
  pose proof (metadata_last_writer_wins
                (env_at 1000) (call_job1 (Some {[ "a" := PyInt 1; "b" := PyInt 1 ]}))
                (env_at 2000) (call_job1 (Some {[ "b" := PyInt 2 ]}))
                fresh_process eq_refl) as H.
  specialize (H ltac:(vm_compute; reflexivity)). cbv zeta in H.
  specialize (H ltac:(vm_compute; reflexivity)).
  destruct H as (r2 & Hr2 & Hk).
  exists r2. split_and!; [exact Hr2 | |]; rewrite Hk; vm_compute; reflexivity.
Defined.

(** ** The same call again *)

Lemma shallow_merge_self (n : jsonb) : shallow_merge n n = n.
Proof.
  apply map_eq; intros k. unfold shallow_merge. rewrite lookup_merge.
  now destruct (n !! k).
Qed.

Lemma shallow_merge_twice (o n : jsonb) :
  shallow_merge (shallow_merge o n) n = shallow_merge o n.
Proof.
  apply map_eq; intros k. unfold shallow_merge. rewrite !lookup_merge.
  now destruct (o !! k), (n !! k).
Qed.

Lemma merged_twice (o m : option jsonb) :
  merged_as_stated (merged_as_stated o m) m = merged_as_stated o m.
Proof.
  destruct o as [o|], m as [n|]; simpl; try reflexivity.
  - now rewrite shallow_merge_twice.
  - now rewrite shallow_merge_self.
Qed.

Lemma merged_self (m : option jsonb) : merged_as_stated m m = m.
Proof. destruct m as [n|]; simpl; [|done]. now rewrite shallow_merge_self. Qed.

Lemma metadata_do_update_row now ex r :
  metadata (do_update now ex r) = merged_as_stated (metadata r) (metadata ex).
Proof. apply coalesce_merge. Qed.

(** What the statement leaves in every row under its key. *)
Lemma insert_on_conflict_written now ex (t : Table) r :
  updated_at ex = now →
  r ∈ insert_on_conflict now ex t →
  job_id r = job_id ex →
  status r = status ex ∧ stage r = stage ex
  ∧ error_message r = error_message ex
  ∧ merged_as_stated (metadata r) (metadata ex) = metadata r
  ∧ updated_at r = now.
Proof.
  intros Hnow Hin Hkey. unfold insert_on_conflict in Hin.
  destruct (existsb (has_job (job_id ex)) t) eqn:Hex.
  - apply list_elem_of_In, in_map_iff in Hin as (r0 & <- & Hr0).
    destruct (has_job (job_id ex) r0) eqn:Hj.
    + rewrite !metadata_do_update_row.
      split_and!; try reflexivity. apply merged_twice.
    + apply (proj2 (has_job_true (job_id ex) r0)) in Hkey. congruence.
  - apply elem_of_app in Hin as [Hin|Hin].
    + assert (existsb (has_job (job_id ex)) t = true); [|congruence].
      apply existsb_has_job. rewrite <- Hkey. unfold job_ids.
      apply list_elem_of_fmap. eauto.
    + apply list_elem_of_singleton in Hin as ->.
      split_and!; try done. apply merged_self.
Qed.

Lemma insert_on_conflict_again now1 now2 ex1 ex2 (t : Table) :
  updated_at ex1 = now1 →
  job_id ex2 = job_id ex1 → status ex2 = status ex1 → stage ex2 = stage ex1 →
  error_message ex2 = error_message ex1 → metadata ex2 = metadata ex1 →
  insert_on_conflict now2 ex2 (insert_on_conflict now1 ex1 t)
  = map (stamp now2 (job_id ex1)) (insert_on_conflict now1 ex1 t).
Proof.
  intros Hnow Hj Hs Hg He Hm.
  assert (Hex : existsb (has_job (job_id ex2)) (insert_on_conflict now1 ex1 t) = true).
  { apply existsb_has_job. rewrite job_ids_insert_on_conflict, Hj.
    destruct (existsb _ t) eqn:Hex; [now apply existsb_has_job|].
    apply elem_of_app. right. now apply list_elem_of_singleton. }
  unfold insert_on_conflict at 1. rewrite Hex. apply map_ext_in.
  intros r Hr. apply list_elem_of_In in Hr. unfold stamp. rewrite Hj.
  destruct (has_job (job_id ex1) r) eqn:Hkey; [|reflexivity].
  apply has_job_true in Hkey.
  destruct (insert_on_conflict_written now1 ex1 t r Hnow Hr Hkey)
    as (Hs' & Hg' & He' & Hm' & _).
  pose proof (metadata_do_update_row now2 ex2 r) as Hmeta.
  rewrite Hm, Hm' in Hmeta.
  destruct (do_update now2 ex2 r) as [j0 sr0 s0 g0 e0 m0 u0] eqn:Hrow.
  apply (f_equal (λ x, (job_id x, series_id x, status x, stage x,
                        error_message x, updated_at x))) in Hrow.
  simpl in Hrow, Hmeta. injection Hrow as <- <- <- <- <- <-.
  now rewrite Hmeta, Hs, Hg, He, Hs', Hg', He'.
Qed.

(** X4: the call is idempotent up to the timestamp: once a call has
    committed, the same call made again changes nothing in the table
    but updated_at in the record of its job_id, which becomes the
    server time of the second write; no record is added, no metadata
    is added twice.  If the second write does not commit, or reads the
    same server time, the table does not change at all. *)
Theorem repeated_call_only_stamps env1 env2 a w :
  write_succeeds env1 a w = true →
  let w1 := (update_status env1 a w).1 in
  db (update_status env2 a w1).1
  = (if write_succeeds env2 a w1
     then map (stamp (NOW env2) (arg_job_id a)) (db w1)
     else db w1)
  ∧ (NOW env2 = NOW env1 → db (update_status env2 a w1).1 = db w1).
Proof.
  intros Hok w1.
  assert (Hdb1 : db w1 = insert_on_conflict (NOW env1)
                           (excluded_row env1 a (stored_param a)) (db w))
    by (unfold w1; now rewrite update_status_db, Hok).
  assert (Hagain : insert_on_conflict (NOW env2)
                     (excluded_row env2 a (stored_param a)) (db w1)
                   = map (stamp (NOW env2) (arg_job_id a)) (db w1)).
  { rewrite Hdb1.
    now apply (insert_on_conflict_again (NOW env1) (NOW env2)
                 (excluded_row env1 a (stored_param a))
                 (excluded_row env2 a (stored_param a))). }
  split.
  - rewrite update_status_db. now destruct (write_succeeds env2 a w1).
  - intros Hsame. rewrite update_status_db.
    destruct (write_succeeds env2 a w1); [|reflexivity].
    rewrite Hagain. rewrite <- (map_id (db w1)) at 2. apply map_ext_in.
    intros r Hr. apply list_elem_of_In in Hr. unfold stamp.
    destruct (has_job (arg_job_id a) r) eqn:Hkey; [|reflexivity].
    apply has_job_true in Hkey. rewrite Hdb1 in Hr.
    destruct (insert_on_conflict_written (NOW env1)
                (excluded_row env1 a (stored_param a)) (db w) r eq_refl Hr Hkey)
      as (_ & _ & _ & _ & Hat).
    rewrite Hsame, <- Hat. now destruct r.
Qed.

Lemma repeated_call_only_stamps_witness :
  let a := call_job1 (Some {[ "rows" := PyInt 100 ]}) in
  db (run_calls [ (env_at 2000, a); (env_at 3000, a) ] (process_with_job1 None))
  = [ mkRow "job1" "AAPL" "completed" "forecasting" None
        (Some {[ "rows" := JNum 100 ]}) 3000 ].
Proof.
  intros a.
  pose proof (repeated_call_only_stamps (env_at 2000) (env_at 3000) a
                (process_with_job1 None)) as H.
  specialize (H ltac:(vm_compute; reflexivity)). cbv zeta in H.
  destruct H as [H _]. simpl. rewrite H. vm_compute. reflexivity.
Defined.

(** ** The pool over a sequence of calls *)

Lemma update_status_trace_app env a w :
  trace (update_status env a w).1 = trace w ++ call_events env a w.
Proof.
  destruct (update_status_shape env a w)
    as [(pre & e & Htr & _)|(pre & c & p & mid & Htr & _)];
    now rewrite (call_events_eq _ _ _ _ Htr).
Qed.

Lemma getconn_raises_inv env p w w2 e :
  getconn env p w = (w2, Raise e) →
  w2 = w
  ∧ e = if (maxconn p <=? length (used_of p w))%nat
        then PoolError else DatabaseError OpGetConn.
Proof.
  unfold getconn. unfold_M.
  destruct (maxconn p <=? length (used_of p w))%nat; simpl; [now intros [= <- <-]|].
  destruct (fails env OpGetConn); simpl; [now intros [= <- <-] | discriminate].
Qed.

Lemma metadata_param_raises m e : metadata_param m = Raise e → e = TypeError.
Proof.
  unfold metadata_param. destruct m as [d|]; [|discriminate].
  destruct (truthy (Some d)); [|discriminate].
  destruct (json_dumps d); [discriminate|]. now intros [= <-].
Qed.

Lemma write_result_not_pool_error env a : write_result env a ≠ Raise PoolError.
Proof.
  unfold write_result. destruct (fails env OpCursor); [done|].
  destruct (metadata_param (arg_metadata a)) as [m|e] eqn:Hm.
  - destruct (fails env OpExecute), (fails env OpCommit), (fails env OpCursorClose);
      done.
  - apply metadata_param_raises in Hm as ->. done.
Qed.

Lemma update_status_pool_used env a w w1 p w2 c :
  get_pool env w = (w1, Ok p) →
  getconn env p w1 = (w2, Ok c) →
  used_of p (update_status env a w).1 = used_of p w1.
Proof.
  intros Hg Hgc. rewrite update_status_eq, Hg, Hgc.
  apply getconn_inv in Hgc as (Hc & Hlt & Hf & Hw2).
  assert (Hfresh : c ∉ used_of p w1) by (subst c; apply fresh_conn_notin).
  assert (Hin : c ∈ used_of p w2) by (subst w2; rewrite used_of_insert; set_solver).
  assert (Htxn : txn w2 = None) by (subst w2; reflexivity).
  destruct (write env a c w2) as [w3 r] eqn:Hw.
  apply (write_inv _ _ _ _ _ _ Htxn) in Hw as (_ & _ & Hu3 & _).
  assert (Hin3 : c ∈ used_of p w3) by (unfold used_of in *; now rewrite Hu3).
  assert (Hused3 : used_of p w3 = c :: used_of p w1).
  { unfold used_of at 1. rewrite Hu3. subst w2. simpl. now rewrite lookup_insert_eq. }
  assert (Hback : filter (λ c', c' ≠ c) (used_of p w3) = used_of p w1)
    by (rewrite Hused3; now apply filter_ne_fresh).
  destruct r as [[]|e].
  - rewrite (putconn_checked_out _ _ _ Hin3). unfold used_of at 1. simpl.
    rewrite lookup_insert_eq. exact Hback.
  - rewrite on_error_inv. destruct (fails env OpRollback);
      rewrite putconn_checked_out by exact Hin3; unfold used_of at 1; simpl;
      rewrite lookup_insert_eq; exact Hback.
Qed.

Lemma update_status_pool_idle env a w :
  pool_idle w →
  pool_idle (update_status env a w).1
  ∧ EvLog (UpdateFailed PoolError) ∉ call_events env a w.
Proof.
  intros Hidle.
  assert (Hsetup : ∀ pre, Forall (λ ev, is_setup_event ev = true) pre →
                          EvLog (UpdateFailed PoolError) ∉ pre).
  { intros pre Hpre Hin. rewrite Forall_forall in Hpre.
    specialize (Hpre _ Hin). discriminate. }
  destruct (get_pool env w) as [w1 [p|e]] eqn:Hg.
  2:{ destruct (call_events_no_connection env a w w1 e) as (pre & Hs & ->);
        [now left|].
      rewrite (update_status_no_connection env a w w1 e) by now left.
      apply get_pool_raises in Hg as (-> & Hnone & He). split.
      - intros q Hq. simpl in Hq. congruence.
      - intros Hin. apply elem_of_app in Hin as [Hin|Hin]; [now apply (Hsetup pre)|].
        apply list_elem_of_singleton in Hin. injection Hin as <-.
        destruct (py_int _ _); [destruct He|]; discriminate. }
  assert (Hp1 : cls_pool w1 = Some p ∧ used_of p w1 = [] ∧ (0 < maxconn p)%nat).
  { apply get_pool_inv in Hg as [[Hc ->]|(_ & _ & (n & _ & ->) & ->)].
    - split; [done|]. now apply Hidle.
    - split_and!; [done | | simpl; lia].
      unfold used_of, new_pool. simpl. now rewrite lookup_insert_eq. }
  destruct Hp1 as (Hcp1 & Hused1 & Hmax).
  destruct (update_status_pool env a w) as [Hcp _]. rewrite Hg in Hcp. simpl in Hcp.
  destruct (getconn env p w1) as [w2 [c|e]] eqn:Hgc.
  2:{ assert (Hno : get_pool env w = (w1, Raise e)
                    ∨ (∃ p0, get_pool env w = (w1, Ok p0)
                             ∧ (getconn env p0 w1).2 = Raise e)).
      { right. exists p. now rewrite Hgc. }
      destruct (call_events_no_connection env a w w1 e Hno) as (pre & Hs & ->).
      rewrite (update_status_no_connection env a w w1 e Hno) in *.
      apply getconn_raises_inv in Hgc as (_ & He). split.
      - intros q Hq. simpl in Hq. rewrite Hcp1 in Hq. injection Hq as <-.
        split; [exact Hused1 | exact Hmax].
      - intros Hin. apply elem_of_app in Hin as [Hin|Hin]; [now apply (Hsetup pre)|].
        apply list_elem_of_singleton in Hin. injection Hin as <-.
        rewrite Hused1 in He. simpl in He.
        destruct (maxconn p <=? 0)%nat eqn:Hle; [|discriminate].
        apply Nat.leb_le in Hle. lia. }
  split.
  - intros q Hq. rewrite Hcp, Hcp1 in Hq. injection Hq as <-.
    rewrite (update_status_pool_used env a w w1 p w2 c Hg Hgc).
    split; [exact Hused1 | exact Hmax].
  - destruct (call_events_with_connection env a w w1 p w2 c Hg Hgc) as (pre & Hs & ->).
    intros Hin. apply elem_of_app in Hin as [Hin|Hin]; [now apply (Hsetup pre)|].
    apply elem_of_cons in Hin as [Hin|Hin]; [discriminate|].
    apply elem_of_app in Hin as [Hin|Hin].
    + unfold write_trace in Hin.
      destruct (fails env OpCursor), (metadata_param (arg_metadata a)),
        (fails env OpExecute), (fails env OpCommit), (fails env OpCursorClose);
        repeat (apply elem_of_cons in Hin as [Hin|Hin]; [discriminate Hin|]);
        now apply not_elem_of_nil in Hin.
    + apply elem_of_app in Hin as [Hin|Hin];
        [|apply list_elem_of_singleton in Hin; discriminate].
      pose proof (write_result_not_pool_error env a) as Hne.
      unfold handler_trace in Hin. destruct (write_result env a) as [[]|e];
        [now apply not_elem_of_nil in Hin|].
      apply elem_of_cons in Hin as [Hin|Hin]; [injection Hin as <-; done|].
      destruct (fails env OpRollback);
        repeat (apply elem_of_cons in Hin as [Hin|Hin]; [discriminate Hin|]);
        now apply not_elem_of_nil in Hin.
Qed.

(** X3: calls made one after the other never run the pool dry: if the
    pool of the class, when there is one, has nothing checked out, then
    after any sequence of calls it has nothing checked out either,
    whatever failed in between, and no call of the sequence has failed
    with [PoolError]. *)
Theorem sequential_calls_never_exhaust cs w :
  pool_idle w →
  EvLog (UpdateFailed PoolError) ∉ trace w →
  pool_idle (run_calls cs w)
  ∧ EvLog (UpdateFailed PoolError) ∉ trace (run_calls cs w).
Proof.
  revert w. induction cs as [|[env a] cs IH]; intros w Hidle Hlog; simpl; [done|].
  destruct (update_status_pool_idle env a w Hidle) as [Hidle' Hno].
  apply IH; [exact Hidle'|].
  rewrite update_status_trace_app. intros Hin.
  apply elem_of_app in Hin as [Hin|Hin]; contradiction.
Qed.

Lemma sequential_calls_never_exhaust_witness :
  let wn := run_calls [ (env_at 1000, call_job1 None);
                        (env_connection_lost, call_job1 None);
                        (env_close_fails, call_job1 (Some ∅));
                        (env_at 4000, call_job1 None) ] fresh_process in
  pool_idle wn ∧ EvLog (UpdateFailed PoolError) ∉ trace wn.
Proof.
  apply (sequential_calls_never_exhaust _ fresh_process).
  - intros p Hp. discriminate Hp.
  - apply not_elem_of_nil.
Defined.
